(** * runCmd: a command-group runner

    A shallow embedding of [main.go]: the configuration reader
    ([parseConfig], [mergeConfig]), the start-up code of [main], and the
    bounded fan-out of [runCmdsInDir] goroutines behind a buffered channel
    and a wait group, as an interleaving step function over thread states.

    Go strings are byte strings; they are modelled by [string], one [ascii]
    per byte.  Go maps are modelled by [gmap]. *)

From Stdlib Require Import ZArith List Ascii String Lia.
From stdpp Require Import base option list gmap strings fin_maps pretty.

Local Open Scope string_scope.
Local Open Scope list_scope.
Local Open Scope nat_scope.

(** ** Byte strings and the functions of package [strings] *)

Module Strings.

Abbreviation bytes := (list ascii).

Definition to_bytes (s : string) : bytes := list_ascii_of_string s.
Definition of_bytes (l : bytes) : string := string_of_list_ascii l.

Definition byte_eqb (a b : ascii) : bool := Ascii.eqb a b.

Definition code (c : ascii) : nat := nat_of_ascii c.

(** [strings.HasPrefix(s, prefix)] on bytes. *)
Fixpoint has_prefix (p l : bytes) : bool :=
  match p, l with
  | [], _ => true
  | _ :: _, [] => false
  | a :: p', b :: l' => byte_eqb a b && has_prefix p' l'
  end.

Definition HasPrefix (s prefix : string) : bool :=
  has_prefix (to_bytes prefix) (to_bytes s).

(** [strings.HasSuffix(s, suffix)]. *)
Definition HasSuffix (s suffix : string) : bool :=
  has_prefix (reverse (to_bytes suffix)) (reverse (to_bytes s)).

(** The white space of [unicode.IsSpace], as the UTF-8 byte sequences of
    its code points: U+0009..U+000D, U+0020, U+0085, U+00A0, U+1680,
    U+2000..U+200A, U+2028, U+2029, U+202F, U+205F, U+3000.  A byte that
    starts no such sequence decodes to another rune (or to the error rune of
    width one), which is no space. *)
Definition is_ascii_space (c : ascii) : bool :=
  let n := code c in
  ((9 <=? n) && (n <=? 13)) || (n =? 32).

(** Strips one leading white-space rune, if there is one. *)
Definition strip_space_front (l : bytes) : option bytes :=
  match l with
  | [] => None
  | c :: r =>
    if is_ascii_space c then Some r else
    match r with
    | [] => None
    | c2 :: r2 =>
      if (code c =? 194) && ((code c2 =? 133) || (code c2 =? 160)) then Some r2 else
      match r2 with
      | [] => None
      | c3 :: r3 =>
        let a := code c in let b := code c2 in let d := code c3 in
        if    ((a =? 225) && (b =? 154) && (d =? 128))
           || ((a =? 226) && (b =? 128) &&
                 (((128 <=? d) && (d <=? 138)) || (d =? 168) || (d =? 169) || (d =? 175)))
           || ((a =? 226) && (b =? 129) && (d =? 159))
           || ((a =? 227) && (b =? 128) && (d =? 128))
        then Some r3 else None
      end
    end
  end.

(** Strips one trailing white-space rune from a reversed string: the same
    sequences, read backwards. *)
Definition strip_space_back (l : bytes) : option bytes :=
  match l with
  | [] => None
  | c :: r =>
    if is_ascii_space c then Some r else
    match r with
    | [] => None
    | c2 :: r2 =>
      if (code c2 =? 194) && ((code c =? 133) || (code c =? 160)) then Some r2 else
      match r2 with
      | [] => None
      | c3 :: r3 =>
        let a := code c3 in let b := code c2 in let d := code c in
        if    ((a =? 225) && (b =? 154) && (d =? 128))
           || ((a =? 226) && (b =? 128) &&
                 (((128 <=? d) && (d <=? 138)) || (d =? 168) || (d =? 169) || (d =? 175)))
           || ((a =? 226) && (b =? 129) && (d =? 159))
           || ((a =? 227) && (b =? 128) && (d =? 128))
        then Some r3 else None
      end
    end
  end.

(** Repeats a stripping step; every step removes a byte, so the length of
    the input is fuel enough. *)
Fixpoint strip_while (strip : bytes -> option bytes) (fuel : nat) (l : bytes) : bytes :=
  match fuel with
  | O => l
  | S fuel' =>
    match strip l with
    | Some r => strip_while strip fuel' r
    | None => l
    end
  end.

Definition trim_space (l : bytes) : bytes :=
  let l1 := strip_while strip_space_front (length l) l in
  reverse (strip_while strip_space_back (length l1) (reverse l1)).

(** [strings.TrimSpace(s)]. *)
Definition TrimSpace (s : string) : string := of_bytes (trim_space (to_bytes s)).

(** [strings.Trim(s, cutset)] for a cutset of ASCII bytes: every trailing
    and then every leading byte of the cutset goes. *)
Definition in_cutset (cut : bytes) (c : ascii) : bool := existsb (byte_eqb c) cut.

Fixpoint drop_cut (cut : bytes) (l : bytes) : bytes :=
  match l with
  | [] => []
  | c :: r => if in_cutset cut c then drop_cut cut r else l
  end.

Definition Trim (s cutset : string) : string :=
  let cut := to_bytes cutset in
  of_bytes (drop_cut cut (reverse (drop_cut cut (reverse (to_bytes s))))).

(** [strings.SplitN(s, sep, 2)] for a one-byte separator: the text before
    the first separator and the text after it, or [s] alone. *)
Fixpoint cut_at (sep : ascii) (l : bytes) : option (bytes * bytes) :=
  match l with
  | [] => None
  | c :: r =>
    if byte_eqb c sep then Some ([], r)
    else match cut_at sep r with
         | Some (a, b) => Some (c :: a, b)
         | None => None
         end
  end.

Definition SplitN2 (s : string) (sep : ascii) : list string :=
  match cut_at sep (to_bytes s) with
  | Some (a, b) => [of_bytes a; of_bytes b]
  | None => [s]
  end.

(** [strings.Join(elems, sep)]. *)
Fixpoint Join (elems : list string) (sep : string) : string :=
  match elems with
  | [] => ""
  | [e] => e
  | e :: rest => e +:+ sep +:+ Join rest sep
  end.

(** [strings.Split(s, sep)] for a one-byte separator; [cur] is the piece
    being read, in reverse. *)
Fixpoint split_bytes (sep : ascii) (cur : bytes) (l : bytes) : list bytes :=
  match l with
  | [] => [reverse cur]
  | c :: r =>
    if byte_eqb c sep then reverse cur :: split_bytes sep [] r
    else split_bytes sep (c :: cur) r
  end.

Definition Split (s : string) (sep : ascii) : list string :=
  map of_bytes (split_bytes sep [] (to_bytes s)).

(** No byte of [s] is [c]. *)
Definition free_of (c : ascii) (s : string) : Prop :=
  Forall (fun b => byte_eqb b c = false) (to_bytes s).

End Strings.

(** ** [bufio.Scanner] with the default split function [ScanLines] *)

Module Bufio.
Import Strings.

(** [bufio.MaxScanTokenSize]: a line that fills the whole buffer without a
    line end makes [Scan] give up with [ErrTooLong]. *)
Definition MaxScanTokenSize : N := 65536%N.

Definition newline : ascii := ascii_of_nat 10.
Definition carriage_return : ascii := ascii_of_nat 13.

(** The input cut at every line end; [cur] is the line being read, in
    reverse.  Data after the last line end is a line of its own unless it
    is empty. *)
Fixpoint raw_lines (cur : bytes) (l : bytes) : list bytes :=
  match l with
  | [] => match cur with [] => [] | _ => [reverse cur] end
  | c :: r =>
    if byte_eqb c newline then reverse cur :: raw_lines [] r
    else raw_lines (c :: cur) r
  end.

(** [dropCR]: one trailing carriage return goes. *)
Definition dropCR (l : bytes) : bytes :=
  match reverse l with
  | c :: r => if byte_eqb c carriage_return then reverse r else l
  | [] => l
  end.

(** The lines up to the first one that does not fit the buffer. *)
Fixpoint fitting (ls : list bytes) : list bytes :=
  match ls with
  | [] => []
  | l :: rest => if (N.of_nat (length l) <? MaxScanTokenSize)%N then l :: fitting rest else []
  end.

(** The successive values of [scanner.Text()] while [scanner.Scan()] is
    true, for a scanner over [strings.NewReader(content)]. *)
Definition scan_lines (content : string) : list string :=
  map (fun l => of_bytes (dropCR l)) (fitting (raw_lines [] (to_bytes content))).

End Bufio.

(** ** The configuration: [Config], [parseConfig], [mergeConfig] *)

Record Config := mkConfig {
  Settings : gmap string string;
  Groups : gmap string (list string)
}.

Definition empty_config : Config := mkConfig ∅ ∅.

Definition equals_sign : ascii := ascii_of_nat 61.

(** The body of the loop of [parseConfig] on one scanned line: the state is
    the configuration built so far and [currentGroup]. *)
Definition parse_line (st : Config * string) (text : string) : Config * string :=
  let '(cfg, currentGroup) := st in
  let line := Strings.TrimSpace text in
  if String.eqb line "" || Strings.HasPrefix line "#" then st
  else if Strings.HasPrefix line "[" && Strings.HasSuffix line "]" then
    let g := Strings.Trim line "[]" in
    (if negb (String.eqb g "settings")
     then mkConfig (Settings cfg) (<[g := []]> (Groups cfg))
     else cfg, g)
  else if String.eqb currentGroup "settings" then
    match Strings.SplitN2 line equals_sign with
    | [k; v] =>
      (mkConfig (<[Strings.TrimSpace k := Strings.TrimSpace v]> (Settings cfg)) (Groups cfg),
       currentGroup)
    | _ => st
    end
  else if negb (String.eqb currentGroup "") then
    (mkConfig (Settings cfg)
       (<[currentGroup := default [] (Groups cfg !! currentGroup) ++ [line]]> (Groups cfg)),
     currentGroup)
  else st.

Definition parse_lines (st : Config * string) (lines : list string) : Config * string :=
  foldl parse_line st lines.

Definition parseConfig (content : string) : Config :=
  fst (parse_lines (empty_config, "") (Bufio.scan_lines content)).

(** A [for k, v := range src { dst[k] = v }] loop, for the order
    [entries] in which the runtime happens to visit the map. *)
Definition assign_all {V} (entries : list (string * V)) (dst : gmap string V)
  : gmap string V :=
  foldl (fun acc kv => <[kv.1 := kv.2]> acc) dst entries.

(** [append([]string{}, cmds...)]: a new slice with the elements of [cmds]. *)
Definition copy_cmds (cmds : list string) : list string := [] ++ cmds.

Definition mergeConfig (base override : Config) : Config :=
  let s0 : gmap string string := ∅ in
  let g0 : gmap string (list string) := ∅ in
  let s1 := assign_all (map_to_list (Settings base)) s0 in
  let g1 := assign_all (map_to_list (copy_cmds <$> Groups base)) g0 in
  let s2 := assign_all (map_to_list (Settings override)) s1 in
  let g2 := assign_all (map_to_list (copy_cmds <$> Groups override)) g1 in
  mkConfig s2 g2.

(** ** [strconv.Atoi] *)

Module Strconv.
Import Strings.

Definition digit_of (c : ascii) : option Z :=
  let n := code c in
  if (48 <=? n) && (n <=? 57) then Some (Z.of_nat (n - 48)) else None.

Fixpoint parse_digits (acc : Z) (l : bytes) : option Z :=
  match l with
  | [] => Some acc
  | c :: r =>
    match digit_of c with
    | Some d => parse_digits (acc * 10 + d)%Z r
    | None => None
    end
  end.

Definition minus_sign : ascii := ascii_of_nat 45.
Definition plus_sign : ascii := ascii_of_nat 43.

(** The width of [int]; the program is modelled for a 64-bit platform. *)
Definition intSize : Z := 64.

(** [strconv.Atoi(s)]: [Some n] when [err == nil], [None] on a syntax error
    (no digits, or a byte that is no decimal digit after the optional sign)
    and on a range error (the value does not fit [int]). *)
Definition Atoi (s : string) : option Z :=
  let l := to_bytes s in
  let '(neg, ds) :=
    match l with
    | c :: r =>
      if byte_eqb c minus_sign then (true, r)
      else if byte_eqb c plus_sign then (false, r)
      else (false, l)
    | [] => (false, l)
    end in
  match ds with
  | [] => None
  | _ :: _ =>
    match parse_digits 0 ds with
    | Some n =>
      let v := if neg then (- n)%Z else n in
      if ((- 2 ^ (intSize - 1) <=? v) && (v <=? 2 ^ (intSize - 1) - 1))%Z
      then Some v else None
    | None => None
    end
  end.

End Strconv.

(** ** What the program writes to standard output *)

Inductive event :=
| Usage
| ExternalConfig
| GroupNotFound (group : string)
| MaxConcurrency (n : Z)
| StartBanner (dir : string)
| StartFailed (dir : string) (err : string)
| OutputLine (dir : string) (line : string)
| RunError (dir : string) (err : string)
| DoneBanner (dir : string).

Definition LF : string := String (ascii_of_nat 10) "".

Definition externalConfigFile : string := "config.txt".

(** The text of each [fmt.Println] and [fmt.Printf] call of [main.go]; an
    error is shown by its message. *)
Definition render (e : event) : string :=
  match e with
  | Usage => "用法: ./runCmd <group> <dir1> <dir2> ..." +:+ LF
  | ExternalConfig =>
    "检测到外部配置 " +:+ externalConfigFile +:+ "，将覆盖默认配置" +:+ LF
  | GroupNotFound g => "未找到组 [" +:+ g +:+ "] 的命令，请检查配置" +:+ LF
  | MaxConcurrency n => "最大并发数: " +:+ pretty n +:+ LF
  | StartBanner d => ">>> 开始在目录 [" +:+ d +:+ "] 执行命令..." +:+ LF
  | StartFailed d err => "[" +:+ d +:+ "] 启动失败: " +:+ err +:+ LF
  | OutputLine d l => "[" +:+ d +:+ "] " +:+ l +:+ LF
  | RunError d err => "[" +:+ d +:+ "] 执行错误: " +:+ err +:+ LF
  | DoneBanner d => "<<< 完成目录 [" +:+ d +:+ "] 的命令执行" +:+ LF +:+ LF
  end.

(** ** The start of [main], up to the fan-out *)

(** Lines 150-156: the ceiling is 3 unless the setting parses to a positive
    number. *)
Definition concurrency_of (cfg : Config) : Z :=
  let concurrency := 3%Z in
  match Settings cfg !! "concurrency" with
  | Some v =>
    match Strconv.Atoi v with
    | Some n => if (0 <? n)%Z then n else concurrency
    | None => concurrency
    end
  | None => concurrency
  end.

(** Lines 134-142: the embedded configuration, overridden by the external
    file when it can be read ([ext] is its content then). *)
Definition load_config (embedded : string) (ext : option string) : Config * list event :=
  let cfg := parseConfig embedded in
  match ext with
  | Some text => (mergeConfig cfg (parseConfig text), [ExternalConfig])
  | None => (cfg, [])
  end.

(** How [main] leaves its sequential part: it returns (the process exits
    with status 0, as for every return from [main]), or it reaches the loop
    of line 162 with a channel capacity, the commands and the directories. *)
Inductive startup :=
| Return (out : list event)
| Dispatch (out : list event) (concurrency : Z) (cmds : list string) (dirs : list string).

(** [args] is [os.Args], the program name first. *)
Definition main (args : list string) (embedded : string) (ext : option string) : startup :=
  if length args <? 3 then Return [Usage]
  else
    match args with
    | _ :: group :: dirs =>
      let '(cfg, out) := load_config embedded ext in
      match Groups cfg !! group with
      | None => Return (out ++ [GroupNotFound group])
      | Some cmds =>
        let concurrency := concurrency_of cfg in
        Dispatch (out ++ [MaxConcurrency concurrency]) concurrency cmds dirs
      end
    | _ => Return [Usage]
    end.


(** Lines 162-165: the directories for which [main] starts a task. *)
Definition dispatched (st : startup) : list string :=
  match st with
  | Dispatch _ _ _ dirs => dirs
  | Return _ => []
  end.

(** ** The fan-out: [runCmdsInDir] goroutines, the channel and the wait group

    The goroutines of lines 162-166 run interleaved.  Each thread is a
    program counter; a step of the program is a step of one thread that is
    not blocked.  The operating system is a parameter: for the process
    started by a task it tells whether [c.Start()] fails, and otherwise
    which lines the scanner reads from the pipe before the end of the
    stream and what [c.Wait()] returns.  [c.StdoutPipe()] is taken to
    succeed, and a child that never closes its output is outside the
    model: the program has no timeout and would wait for it for ever. *)

Module Engine.

(** The fields of [exec.Cmd] that the program sets. *)
Record Cmd := mkCmd {
  cmd_name : string;
  cmd_args : list string;
  cmd_dir : string
}.

Inductive outcome :=
| StartErr (err : string)
| Ran (lines : list string) (werr : option string).

(** Where a [runCmdsInDir] goroutine stands. *)
Inductive tpc :=
| PAcquire                                        (* line 94, [worker <- struct{}{}] *)
| PBanner                                         (* line 97 *)
| PStart                                          (* lines 99-107, [c.Start()] *)
| PStartFailed (err : string)                     (* line 108 *)
| PScan (lines : list string) (werr : option string)  (* lines 114-118 *)
| PRunError (err : string)                        (* line 119 *)
| PFinish                                         (* line 121 *)
| PRelease                                        (* deferred [<-worker] *)
| PWgDone                                         (* deferred [wg.Done()] *)
| PDone.

Record task := mkTask { t_dir : string; t_pc : tpc }.

(** Where [main] stands: at the head of the loop over the directories left
    (line 162, and [wg.Wait()] when none is left), between [wg.Add(1)] and
    the [go] statement, or returned. *)
Inductive mpc :=
| MLoop (rest : list string)
| MGo (dir : string) (rest : list string)
| MReturned.

Record state := mkState {
  main_pc : mpc;
  wg : nat;            (* the counter of the wait group *)
  worker : nat;        (* the number of values in the channel *)
  tasks : list task    (* the goroutines, in the order of their start *)
}.

Inductive tid := Main | Task (i : nat).

Inductive label :=
| LAdd
| LGo (i : nat)
| LWaitReturn
| LSend (i : nat)
| LRecv (i : nat)
| LWgDone (i : nat)
| LStart (i : nat) (c : Cmd)
| LWait (i : nat)
| LPrint (i : nat) (e : event).

Definition init (dirs : list string) : state := mkState (MLoop dirs) 0 0 [].

Section Run.

Variable capacity : nat.          (* [cap(worker)] *)
Variable cmds : list string.
Variable os : nat -> Cmd -> outcome.

(** Lines 99-101. *)
Definition command (dir : string) : Cmd :=
  let script := Strings.Join cmds LF in
  mkCmd "sh" ["-c"; script] dir.

Definition set_pc (s : state) (i : nat) (t : task) (pc : tpc) : state :=
  mkState (main_pc s) (wg s) (worker s) (<[i := mkTask (t_dir t) pc]> (tasks s)).

Definition step_task (i : nat) (s : state) : option (label * state) :=
  match tasks s !! i with
  | None => None
  | Some t =>
    let dir := t_dir t in
    match t_pc t with
    | PAcquire =>
      if worker s <? capacity
      then Some (LSend i,
                 mkState (main_pc s) (wg s) (S (worker s))
                         (<[i := mkTask dir PBanner]> (tasks s)))
      else None
    | PBanner => Some (LPrint i (StartBanner dir), set_pc s i t PStart)
    | PStart =>
      let c := command dir in
      match os i c with
      | StartErr err => Some (LStart i c, set_pc s i t (PStartFailed err))
      | Ran lines werr => Some (LStart i c, set_pc s i t (PScan lines werr))
      end
    | PStartFailed err => Some (LPrint i (StartFailed dir err), set_pc s i t PRelease)
    | PScan (line :: lines) werr =>
      Some (LPrint i (OutputLine dir line), set_pc s i t (PScan lines werr))
    | PScan [] (Some err) => Some (LWait i, set_pc s i t (PRunError err))
    | PScan [] None => Some (LWait i, set_pc s i t PFinish)
    | PRunError err => Some (LPrint i (RunError dir err), set_pc s i t PFinish)
    | PFinish => Some (LPrint i (DoneBanner dir), set_pc s i t PRelease)
    | PRelease =>
      match worker s with
      | S n =>
        Some (LRecv i,
              mkState (main_pc s) (wg s) n (<[i := mkTask dir PWgDone]> (tasks s)))
      | O => None
      end
    | PWgDone =>
      match wg s with
      | S n =>
        Some (LWgDone i,
              mkState (main_pc s) n (worker s) (<[i := mkTask dir PDone]> (tasks s)))
      | O => None
      end
    | PDone => None
    end
  end.

Definition step_main (s : state) : option (label * state) :=
  match main_pc s with
  | MLoop (dir :: rest) =>
    Some (LAdd, mkState (MGo dir rest) (S (wg s)) (worker s) (tasks s))
  | MGo dir rest =>
    Some (LGo (length (tasks s)),
          mkState (MLoop rest) (wg s) (worker s) (tasks s ++ [mkTask dir PAcquire]))
  | MLoop [] =>
    match wg s with
    | O => Some (LWaitReturn, mkState MReturned (wg s) (worker s) (tasks s))
    | S _ => None
    end
  | MReturned => None
  end.

(** One step of thread [t]; [None] when it is blocked or over.  When [main]
    has returned the process is gone and nothing runs any more. *)
Definition step (s : state) (t : tid) : option (label * state) :=
  match main_pc s with
  | MReturned => None
  | _ =>
    match t with
    | Main => step_main s
    | Task i => step_task i s
    end
  end.

(** The executions: any sequence of steps of threads that can move. *)
Inductive exec : state -> list label -> state -> Prop :=
| exec_nil s : exec s [] s
| exec_step s t l s1 tr s2 :
    step s t = Some (l, s1) -> exec s1 tr s2 -> exec s (l :: tr) s2.

(** An execution under a given schedule. *)
Fixpoint run (s : state) (sched : list tid) : option (list label * state) :=
  match sched with
  | [] => Some ([], s)
  | t :: sched' =>
    match step s t with
    | Some (l, s1) =>
      match run s1 sched' with
      | Some (tr, s2) => Some (l :: tr, s2)
      | None => None
      end
    | None => None
    end
  end.

(** What task [i] does when it runs alone on directory [dir], from the
    first line of [runCmdsInDir] to its last deferred call; the deferred
    calls run last in, first out. *)
Definition closing (i : nat) : list label := [LRecv i; LWgDone i].

Definition scan_rest (i : nat) (dir : string) (lines : list string) (werr : option string)
  : list label :=
  map (fun l => LPrint i (OutputLine dir l)) lines ++
  LWait i ::
  match werr with Some err => [LPrint i (RunError dir err)] | None => [] end ++
  LPrint i (DoneBanner dir) :: closing i.

Definition started_rest (i : nat) (dir : string) (o : outcome) : list label :=
  match o with
  | StartErr err => LPrint i (StartFailed dir err) :: closing i
  | Ran lines werr => scan_rest i dir lines werr
  end.

Definition task_trace (i : nat) (dir : string) : list label :=
  LSend i :: LPrint i (StartBanner dir) :: LStart i (command dir) ::
  started_rest i dir (os i (command dir)).

(** The lines it writes. *)
Definition task_output (i : nat) (dir : string) : list event :=
  StartBanner dir ::
  match os i (command dir) with
  | StartErr err => [StartFailed dir err]
  | Ran lines werr =>
    map (OutputLine dir) lines ++
    match werr with Some err => [RunError dir err] | None => [] end ++
    [DoneBanner dir]
  end.

(** What is left of it at each program point. *)
Definition rest_of (i : nat) (t : task) : list label :=
  let dir := t_dir t in
  match t_pc t with
  | PAcquire => task_trace i dir
  | PBanner =>
    LPrint i (StartBanner dir) :: LStart i (command dir) ::
    started_rest i dir (os i (command dir))
  | PStart => LStart i (command dir) :: started_rest i dir (os i (command dir))
  | PStartFailed err => LPrint i (StartFailed dir err) :: closing i
  | PScan lines werr => scan_rest i dir lines werr
  | PRunError err => LPrint i (RunError dir err) :: LPrint i (DoneBanner dir) :: closing i
  | PFinish => LPrint i (DoneBanner dir) :: closing i
  | PRelease => closing i
  | PWgDone => [LWgDone i]
  | PDone => []
  end.

(** The directories whose goroutine [main] has not started yet. *)
Definition pending (m : mpc) : list string :=
  match m with
  | MLoop rest => rest
  | MGo dir rest => dir :: rest
  | MReturned => []
  end.

(** What task [i] has still to do in state [s], started or not. *)
Definition expected (s : state) (i : nat) : list label :=
  match tasks s !! i with
  | Some t => rest_of i t
  | None =>
    match pending (main_pc s) !! (i - length (tasks s)) with
    | Some dir => task_trace i dir
    | None => []
    end
  end.

(** The steps that [main] has still to take. *)
Definition main_left (m : mpc) : nat :=
  match m with
  | MLoop rest => 2 * length rest + 1
  | MGo _ rest => 2 * length rest + 2
  | MReturned => 0
  end.

Fixpoint sum_below (n : nat) (f : nat -> nat) : nat :=
  match n with
  | O => 0
  | S n' => sum_below n' f + f n'
  end.

Definition starts (o : outcome) : bool :=
  match o with Ran _ _ => true | StartErr _ => false end.

(** The number of directories whose process starts. *)
Definition started_count (dirs : list string) : nat :=
  sum_below (length dirs)
    (fun j => match dirs !! j with
              | Some dir => if starts (os j (command dir)) then 1 else 0
              | None => 0
              end).

(** The tasks of the run, started or not. *)
Definition total (s : state) : nat := length (tasks s) + length (pending (main_pc s)).

(** The number of steps from [s] to the return of [main]. *)
Definition steps_left (s : state) : nat :=
  main_left (main_pc s) + sum_below (total s) (fun i => length (expected s i)).

End Run.

(** The thread a label belongs to. *)
Definition owner (l : label) : tid :=
  match l with
  | LAdd | LGo _ | LWaitReturn => Main
  | LSend i | LRecv i | LWgDone i | LStart i _ | LWait i | LPrint i _ => Task i
  end.

Definition owned_by (i : nat) (l : label) : bool :=
  match owner l with
  | Task j => j =? i
  | Main => false
  end.

(** The part of a trace that task [i] performed. *)
Definition of_task (i : nat) (tr : list label) : list label :=
  List.filter (owned_by i) tr.

(** The events written to standard output, in order. *)
Definition printed (tr : list label) : list event :=
  omap (fun l => match l with LPrint _ e => Some e | _ => None end) tr.

Definition stdout (tr : list label) : string :=
  foldr (fun e acc => render e +:+ acc) "" (printed tr).

(** A task holds a slot of the channel from its send to its receive. *)
Definition holding (pc : tpc) : bool :=
  match pc with
  | PAcquire | PWgDone | PDone => false
  | _ => true
  end.

Definition count {A} (p : A -> bool) (l : list A) : nat := length (List.filter p l).

Definition holders (s : state) : nat := count (fun t => holding (t_pc t)) (tasks s).

(** A task counts in the wait group until its [wg.Done()]. *)
Definition live (pc : tpc) : bool :=
  match pc with PDone => false | _ => true end.

Definition alive (s : state) : nat := count (fun t => live (t_pc t)) (tasks s).

(** Between [wg.Add(1)] and [go] the counter is one ahead of the tasks. *)
Definition announced (m : mpc) : nat :=
  match m with MGo _ _ => 1 | _ => 0 end.

(** The status with which the process exits: a return from [main] is
    status 0, and the program has no other exit. *)
Definition exit_status (s : state) : option Z :=
  match main_pc s with
  | MReturned => Some 0%Z
  | _ => None
  end.

Definition weight (b : bool) : nat := if b then 1 else 0.

(** What every reachable state satisfies: the channel holds one value per
    task between its send and its receive, never more than its capacity,
    and the wait group counts the tasks that have not called [wg.Done()]. *)
Definition invariant (capacity : nat) (s : state) : Prop :=
  worker s = holders s /\
  worker s <= capacity /\
  wg s = alive s + announced (main_pc s) /\
  (main_pc s = MReturned -> wg s = 0).

Definition prints (p : event -> bool) (l : label) : bool :=
  match l with LPrint _ e => p e | _ => false end.

Definition is_done_banner (e : event) : bool :=
  match e with DoneBanner _ => true | _ => false end.

Definition is_start_banner (e : event) : bool :=
  match e with StartBanner _ => true | _ => false end.

Definition is_start_failed (e : event) : bool :=
  match e with StartFailed _ _ => true | _ => false end.

(** A task has a child process from [c.Start()] to [c.Wait()]. *)
Definition has_process (pc : tpc) : bool :=
  match pc with PScan _ _ => true | _ => false end.

Definition is_recv (l : label) : bool :=
  match l with LRecv _ => true | _ => false end.

Definition is_send (l : label) : bool :=
  match l with LSend _ => true | _ => false end.

Definition is_start (l : label) : bool :=
  match l with LStart _ _ => true | _ => false end.

End Engine.

(** ** [mergeConfig] on the heap

    A [*Config] points to a struct of two map references, and a [[]string]
    is a window on a backing array.  This second model of [mergeConfig]
    keeps those objects in a store, to tell what the function writes. *)

Module Heap.

Record slice := mkSlice { s_array : nat; s_off : nat; s_len : nat }.

Record config_obj := mkObj { f_settings : nat; f_groups : nat }.

(** Every object lives at an index of its list; allocation appends. *)
Record heap := mkHeap {
  structs : list config_obj;
  strmaps : list (gmap string string);
  slicemaps : list (gmap string slice);
  arrays : list (list string)
}.

Definition read_slice (h : heap) (sl : slice) : option (list string) :=
  a ← arrays h !! s_array sl;
  if decide (s_off sl + s_len sl ≤ length a)
  then Some (take (s_len sl) (drop (s_off sl) a))
  else None.

(** The configuration that pointer [p] denotes, when every object it
    reaches is there. *)
Definition read_config (h : heap) (p : nat) : option Config :=
  o ← structs h !! p;
  sm ← strmaps h !! f_settings o;
  gm ← slicemaps h !! f_groups o;
  if decide (map_Forall (fun _ sl => is_Some (read_slice h sl)) gm)
  then Some (mkConfig sm (omap (read_slice h) gm))
  else None.

(** [&Config{Settings: make(...), Groups: make(...)}]. *)
Definition alloc_config (h : heap) : nat * heap :=
  let rs := length (strmaps h) in
  let rg := length (slicemaps h) in
  (length (structs h),
   mkHeap (structs h ++ [mkObj rs rg]) (strmaps h ++ [∅]) (slicemaps h ++ [∅]) (arrays h)).

(** [p.Settings[k] = v]; [None] is a run-time panic. *)
Definition store_setting (p : nat) (k v : string) (h : heap) : option heap :=
  o ← structs h !! p;
  m ← strmaps h !! f_settings o;
  Some (mkHeap (structs h) (<[f_settings o := <[k := v]> m]> (strmaps h))
               (slicemaps h) (arrays h)).

(** [append([]string{}, cmds...)]: the elements go to a new array. *)
Definition copy_slice (sl : slice) (h : heap) : option (slice * heap) :=
  elems ← read_slice h sl;
  Some (mkSlice (length (arrays h)) 0 (length elems),
        mkHeap (structs h) (strmaps h) (slicemaps h) (arrays h ++ [elems])).

(** [p.Groups[g] = sl]. *)
Definition store_group (p : nat) (g : string) (sl : slice) (h : heap) : option heap :=
  o ← structs h !! p;
  m ← slicemaps h !! f_groups o;
  Some (mkHeap (structs h) (strmaps h)
               (<[f_groups o := <[g := sl]> m]> (slicemaps h)) (arrays h)).

Fixpoint for_each {A} (body : A -> heap -> option heap) (l : list A) (h : heap)
  : option heap :=
  match l with
  | [] => Some h
  | a :: l' => h' ← body a h; for_each body l' h'
  end.

Definition copy_settings (src dst : nat) (h : heap) : option heap :=
  o ← structs h !! src;
  m ← strmaps h !! f_settings o;
  for_each (fun kv => store_setting dst kv.1 kv.2) (map_to_list m) h.

Definition copy_groups (src dst : nat) (h : heap) : option heap :=
  o ← structs h !! src;
  m ← slicemaps h !! f_groups o;
  for_each (fun gc h0 => '(sl, h1) ← copy_slice gc.2 h0; store_group dst gc.1 sl h1)
           (map_to_list m) h.

(** [mergeConfig] on two [*Config] pointers: the pointer to the result and
    the heap after the call. *)
Definition mergeConfig_ptr (base override : nat) (h : heap) : option (nat * heap) :=
  let '(result, h0) := alloc_config h in
  h1 ← copy_settings base result h0;
  h2 ← copy_groups base result h1;
  h3 ← copy_settings override result h2;
  h4 ← copy_groups override result h3;
  Some (result, h4).

(** The entries of a map of slices with the elements that [h] holds for
    each slice. *)
Definition contents (h : heap) (l : list (string * slice)) : list (string * list string) :=
  omap (fun gs => pair gs.1 <$> read_slice h gs.2) l.

(** [h'] is [h] followed by one more configuration (the result under
    construction) whose settings are [S] and whose groups read as [V]: the
    objects of [h] are as they were, the new struct and its two maps come
    right after them, and the slices of the new groups map are windows on
    arrays that [h] does not have. *)
Definition extends_with (h : heap) (S : gmap string string)
    (V : gmap string (list string)) (h' : heap) : Prop :=
  exists (G : gmap string slice) (ext : list (list string)),
    structs h' = structs h ++ [mkObj (length (strmaps h)) (length (slicemaps h))] /\
    strmaps h' = strmaps h ++ [S] /\
    slicemaps h' = slicemaps h ++ [G] /\
    arrays h' = arrays h ++ ext /\
    forall g, (G !! g) ≫= read_slice h' = V !! g /\
              forall sl, G !! g = Some sl ->
                         is_Some (read_slice h' sl) /\ length (arrays h) <= s_array sl.

End Heap.

(** ** Reading the source's conditions back

    [header_of] tells whether [parseConfig] takes a scanned line for a
    section header, and which name it gives the section; [command_of]
    whether it takes the line for a line of content, and its text. *)

Definition header_of (text : string) : option string :=
  let line := Strings.TrimSpace text in
  if String.eqb line "" || Strings.HasPrefix line "#" then None
  else if Strings.HasPrefix line "[" && Strings.HasSuffix line "]"
       then Some (Strings.Trim line "[]")
       else None.

Definition command_of (text : string) : option string :=
  let line := Strings.TrimSpace text in
  if String.eqb line "" || Strings.HasPrefix line "#" then None
  else if Strings.HasPrefix line "[" && Strings.HasSuffix line "]" then None
       else Some line.

(** The content lines of [lines] before the next header. *)
Fixpoint section_body (lines : list string) : list string :=
  match lines with
  | [] => []
  | text :: rest =>
    match header_of text with
    | Some _ => []
    | None =>
      match command_of text with
      | Some line => line :: section_body rest
      | None => section_body rest
      end
    end
  end.

(** The tasks in the order in which they got a slot of the channel. *)
Definition acquired (tr : list Engine.label) : list nat :=
  omap (fun l => match l with Engine.LSend i => Some i | _ => None end) tr.

(** Whether a label is the send of task [i] on the channel. *)
Definition sends_of (i : nat) (l : Engine.label) : bool :=
  match l with Engine.LSend j => j =? i | _ => false end.

(** The lines that a task which has its slot has still to write. *)
Definition to_write (cmds : list string) (os : nat -> Engine.Cmd -> Engine.outcome)
    (i : nat) (t : Engine.task) : list event :=
  match Engine.t_pc t with
  | Engine.PAcquire => []
  | _ => Engine.printed (Engine.rest_of cmds os i t)
  end.

(** The same for the tasks [ts], which are the tasks from index [k] on. *)
Fixpoint to_write_from (cmds : list string) (os : nat -> Engine.Cmd -> Engine.outcome)
    (k : nat) (ts : list Engine.task) : list event :=
  match ts with
  | [] => []
  | t :: ts' => to_write cmds os k t ++ to_write_from cmds os (S k) ts'
  end.

(** All that the task of index [i] writes, for the directories [dirs]. *)
Definition output_of (cmds : list string) (os : nat -> Engine.Cmd -> Engine.outcome)
    (dirs : list string) (i : nat) : list event :=
  match dirs !! i with
  | Some dir => Engine.task_output cmds os i dir
  | None => []
  end.

(** Whether [parseConfig] looks at a scanned line at all: blank lines and
    comments are passed over at line 36. *)
Definition significant (text : string) : bool :=
  match header_of text, command_of text with
  | None, None => false
  | _, _ => true
  end.

(** What a content line of the [settings] section assigns (lines 51-55):
    the key and the value, or nothing when the line has no equals sign. *)
Definition setting_of (text : string) : option (string * string) :=
  match command_of text with
  | Some line =>
    match Strings.SplitN2 line equals_sign with
    | [k; v] => Some (Strings.TrimSpace k, Strings.TrimSpace v)
    | _ => None
    end
  | None => None
  end.

(** What holds of every line that [parseConfig] stores in a group. *)
Definition is_command (line : string) : Prop :=
  line <> "" /\
  Strings.HasPrefix line "#" = false /\
  (Strings.HasPrefix line "[" && Strings.HasSuffix line "]") = false.

(** ** Sample data *)

(** A heap with a base configuration at pointer 0 (settings [a = 1] and
    [b = 2]; groups [g] and [h], two windows on one array) and an override
    at pointer 1 (setting [b = 3]; group [g]). *)
Definition sample_heap : Heap.heap :=
  Heap.mkHeap
    [Heap.mkObj 0 0; Heap.mkObj 1 1]
    [{[ "a" := "1"; "b" := "2" ]}; {[ "b" := "3" ]}]
    [{[ "g" := Heap.mkSlice 0 0 2; "h" := Heap.mkSlice 0 2 1 ]};
     {[ "g" := Heap.mkSlice 1 1 1 ]}]
    [["a"; "b"; "c"]; ["y"; "x"]].

Definition sample_base : Config :=
  mkConfig {[ "a" := "1"; "b" := "2" ]} {[ "g" := ["a"; "b"]; "h" := ["c"] ]}.

Definition sample_override : Config :=
  mkConfig {[ "b" := "3" ]} {[ "g" := ["x"] ]}.

(** A configuration text with a line of [n] bytes between two headers of
    the same group. *)
Fixpoint filler (n : nat) (rest : string) : string :=
  match n with
  | O => rest
  | S n' => String "x" (filler n' rest)
  end.

Definition text_with_line_of (n : N) : string :=
  "[g]" +:+ LF +:+ "a" +:+ LF +:+
  filler (N.to_nat n) (LF +:+ "[g]" +:+ LF +:+ "b").

(** A run of three directories under a ceiling of two: the first
    directory does not exist, the script fails in the second and succeeds
    in the third. *)
Definition sample_cmds : list string := ["echo a"; "test -f Makefile"].

Definition sample_dirs : list string := ["/a"; "/b"; "/c"].

Definition sample_os (i : nat) (c : Engine.Cmd) : Engine.outcome :=
  match i with
  | 0 => Engine.StartErr "chdir /a: no such file or directory"
  | 1 => Engine.Ran ["a"] (Some "exit status 1")
  | _ => Engine.Ran ["a"] None
  end.

(** [main] starts the three goroutines; tasks 0 and 1 take the two slots. *)
Definition sample_prefix : list Engine.tid :=
  repeat Engine.Main 6 ++ [Engine.Task 0; Engine.Task 1; Engine.Task 1].

(** A schedule of the whole run: task 2 gets its slot when task 0 has
    given its own back. *)
Definition sample_schedule : list Engine.tid :=
  repeat Engine.Main 6 ++ [Engine.Task 0; Engine.Task 1] ++
  repeat (Engine.Task 0) 4 ++ [Engine.Task 2; Engine.Task 0; Engine.Task 2] ++
  repeat (Engine.Task 1) 8 ++ repeat (Engine.Task 2) 6 ++ [Engine.Main].

Definition sample_trace : list Engine.label :=
  match Engine.run 2 sample_cmds sample_os (Engine.init sample_dirs) sample_schedule with
  | Some (tr, _) => tr
  | None => []
  end.

Definition sample_final : Engine.state :=
  match Engine.run 2 sample_cmds sample_os (Engine.init sample_dirs) sample_schedule with
  | Some (_, s) => s
  | None => Engine.init sample_dirs
  end.




(** The same directories under a ceiling of one, the third task first. *)
Definition sample_schedule_one : list Engine.tid :=
  repeat Engine.Main 6 ++ repeat (Engine.Task 2) 7 ++ [Engine.Task 0; Engine.Task 2] ++
  repeat (Engine.Task 0) 5 ++ repeat (Engine.Task 1) 9 ++ [Engine.Main].

Definition sample_trace_one : list Engine.label :=
  match Engine.run 1 sample_cmds sample_os (Engine.init sample_dirs) sample_schedule_one with
  | Some (tr, _) => tr
  | None => []
  end.

Definition sample_final_one : Engine.state :=
  match Engine.run 1 sample_cmds sample_os (Engine.init sample_dirs) sample_schedule_one with
  | Some (_, s) => s
  | None => Engine.init sample_dirs
  end.

(** The run as far as [sample_prefix] takes it. *)
Definition sample_trace_prefix : list Engine.label :=
  match Engine.run 2 sample_cmds sample_os (Engine.init sample_dirs) sample_prefix with
  | Some (tr, _) => tr
  | None => []
  end.

Definition sample_state_prefix : Engine.state :=
  match Engine.run 2 sample_cmds sample_os (Engine.init sample_dirs) sample_prefix with
  | Some (_, s) => s
  | None => Engine.init sample_dirs
  end.

(** The same start under a channel without capacity. *)
Definition sample_trace_unbuffered : list Engine.label :=
  match Engine.run 0 sample_cmds sample_os (Engine.init sample_dirs) (repeat Engine.Main 6) with
  | Some (tr, _) => tr
  | None => []
  end.

Definition sample_state_unbuffered : Engine.state :=
  match Engine.run 0 sample_cmds sample_os (Engine.init sample_dirs) (repeat Engine.Main 6) with
  | Some (_, s) => s
  | None => Engine.init sample_dirs
  end.

(** One directory that does not exist. *)
Definition missing_os (i : nat) (c : Engine.Cmd) : Engine.outcome :=
  Engine.StartErr "chdir /missing: no such file or directory".

Definition missing_schedule : list Engine.tid :=
  repeat Engine.Main 2 ++ repeat (Engine.Task 0) 6 ++ [Engine.Main].

Definition missing_trace : list Engine.label :=
  match Engine.run 1 ["make"] missing_os (Engine.init ["/missing"]) missing_schedule with
  | Some (tr, _) => tr
  | None => []
  end.

Definition missing_final : Engine.state :=
  match Engine.run 1 ["make"] missing_os (Engine.init ["/missing"]) missing_schedule with
  | Some (_, s) => s
  | None => Engine.init ["/missing"]
  end.

(** * Properties *)

(** ** The arguments and the group look-up *)

(** C9: with fewer than two arguments after the program name, [main] prints
    the usage line and returns; nothing is read and nothing is started. *)
Theorem main_usage (args : list string) (embedded : string) (ext : option string) :
  length args < 3 ->
  main args embedded ext = Return [Usage] /\
  dispatched (main args embedded ext) = [].
Proof.
  intros Hlen. unfold main.
  destruct (Nat.ltb_spec (length args) 3) as [_ | Hge]; [by split | lia].
Qed.

Lemma main_usage_witness :
  length ["runCmd"; "build"] < 3 /\
  main ["runCmd"; "build"] "[build]" None = Return [Usage] /\
  dispatched (main ["runCmd"; "build"] "[build]" None) = [].
Proof. split; [simpl; lia |]. apply main_usage. simpl. lia. Defined.

Lemma main_enough_args (prog group dir : string) (dirs : list string) embedded ext :
  main (prog :: group :: dir :: dirs) embedded ext =
  let '(cfg, out) := load_config embedded ext in
  match Groups cfg !! group with
  | None => Return (out ++ [GroupNotFound group])
  | Some cmds =>
    Dispatch (out ++ [MaxConcurrency (concurrency_of cfg)]) (concurrency_of cfg) cmds (dir :: dirs)
  end.
Proof. reflexivity. Qed.

(** C7: when the resolved configuration has no group of the requested name,
    [main] returns after the message that names the group; it does not reach
    the loop that starts the tasks. *)
Theorem main_group_not_found (prog group dir : string) (dirs : list string)
    (embedded : string) (ext : option string) :
  Groups (load_config embedded ext).1 !! group = None ->
  main (prog :: group :: dir :: dirs) embedded ext =
    Return ((load_config embedded ext).2 ++ [GroupNotFound group]) /\
  dispatched (main (prog :: group :: dir :: dirs) embedded ext) = [] /\
  render (GroupNotFound group) = "未找到组 [" +:+ group +:+ "] 的命令，请检查配置" +:+ LF.
Proof.
  intros Hnone.
  assert (main (prog :: group :: dir :: dirs) embedded ext =
          Return ((load_config embedded ext).2 ++ [GroupNotFound group])) as Hmain.
  { rewrite main_enough_args.
    destruct (load_config embedded ext) as [cfg out]. simpl in *.
    by rewrite Hnone. }
  rewrite Hmain. by repeat split.
Qed.

Lemma main_group_not_found_witness :
  main ["runCmd"; "deploy"; "/srv/a"] ("[build]" +:+ LF +:+ "make") None =
    Return ([] ++ [GroupNotFound "deploy"]) /\
  dispatched (main ["runCmd"; "deploy"; "/srv/a"] ("[build]" +:+ LF +:+ "make") None) = [] /\
  render (GroupNotFound "deploy") = "未找到组 [" +:+ "deploy" +:+ "] 的命令，请检查配置" +:+ LF.
Proof.
  apply (main_group_not_found "runCmd" "deploy" "/srv/a" []
           ("[build]" +:+ LF +:+ "make") None).
  vm_compute. reflexivity.
Defined.

(** ** The concurrency ceiling *)

Lemma concurrency_of_cases (cfg : Config) :
  match Settings cfg !! "concurrency" with
  | None => concurrency_of cfg = 3%Z
  | Some v =>
    match Strconv.Atoi v with
    | None => concurrency_of cfg = 3%Z
    | Some n => ((n <= 0)%Z -> concurrency_of cfg = 3%Z) /\
                ((0 < n)%Z -> concurrency_of cfg = n)
    end
  end.
Proof.
  unfold concurrency_of.
  destruct (Settings cfg !! "concurrency") as [v |]; [| reflexivity].
  destruct (Strconv.Atoi v) as [n |]; [| reflexivity].
  destruct (Z.ltb_spec 0 n); split; intros; (reflexivity || lia).
Qed.


Example Atoi_samples :
  map Strconv.Atoi ["5"; "+12"; "007"; "0"; "-3"; ""; "-"; "abc"; "3x"; " 4"; "1_0"; "2.5";
                    "9223372036854775807"; "9223372036854775808"] =
  [Some 5%Z; Some 12%Z; Some 7%Z; Some 0%Z; Some (-3)%Z; None; None; None; None; None; None;
   None; Some 9223372036854775807%Z; None].
Proof. vm_compute. reflexivity. Qed.

(** C4: the capacity that [main] gives the channel is 3 when the resolved
    configuration has no [concurrency] setting, when [strconv.Atoi] rejects
    its value, and when the value is zero or negative; it is [n] when the
    value parses to a positive [n]. *)
Theorem main_ceiling (args : list string) (embedded : string) (ext : option string)
    (out : list event) (c : Z) (cmds dirs : list string) :
  main args embedded ext = Dispatch out c cmds dirs ->
  match Settings (load_config embedded ext).1 !! "concurrency" with
  | None => c = 3%Z
  | Some v =>
    match Strconv.Atoi v with
    | None => c = 3%Z
    | Some n => ((n <= 0)%Z -> c = 3%Z) /\ ((0 < n)%Z -> c = n)
    end
  end.
Proof.
  intros Hmain.
  assert (c = concurrency_of (load_config embedded ext).1) as ->.
  { unfold main in Hmain.
    destruct (length args <? 3); [discriminate |].
    destruct args as [| prog [| group dirs']]; try discriminate.
    destruct (load_config embedded ext) as [cfg o]. simpl.
    destruct (Groups cfg !! group); [| discriminate].
    by inversion Hmain. }
  apply concurrency_of_cases.
Qed.


Lemma main_ceiling_witness :
  let conf := "[settings]" +:+ LF +:+ "concurrency = 0" +:+ LF +:+ "[build]" +:+ LF +:+ "make" in
  main ["runCmd"; "build"; "/a"] conf None = Dispatch [MaxConcurrency 3] 3 ["make"] ["/a"] /\
  (((0 <= 0)%Z -> 3%Z = 3%Z) /\ ((0 < 0)%Z -> 3%Z = 0%Z)).
Proof.
  intros conf. split; [reflexivity |].
  exact (main_ceiling ["runCmd"; "build"; "/a"] conf None
           [MaxConcurrency 3] 3 ["make"] ["/a"] eq_refl).
Defined.

Example ceiling_samples :
  let conf v := "[settings]" +:+ LF +:+ "concurrency = " +:+ v +:+ LF +:+ "[build]" in
  map (fun v => concurrency_of (parseConfig (conf v))) ["8"; "+2"; "0"; "-2"; "many"; ""] =
  [8; 2; 3; 3; 3; 3]%Z /\
  concurrency_of (parseConfig "[build]") = 3%Z.
Proof. vm_compute. split; reflexivity. Qed.

(** ** [parseConfig] and repeated headers *)

Lemma parse_line_header (cfg : Config) (cur text g : string) :
  header_of text = Some g ->
  parse_line (cfg, cur) text =
    (if negb (String.eqb g "settings")
     then mkConfig (Settings cfg) (<[g := []]> (Groups cfg))
     else cfg, g).
Proof.
  unfold header_of, parse_line. cbv zeta.
  destruct (_ || _); [discriminate |].
  destruct (_ && _); [| discriminate].
  by intros [= <-].
Qed.

Lemma parse_line_skip (st : Config * string) (text : string) :
  header_of text = None -> command_of text = None -> parse_line st text = st.
Proof.
  unfold header_of, command_of, parse_line. destruct st as [cfg cur]. cbv zeta.
  destruct (_ || _); [reflexivity |].
  destruct (_ && _); discriminate.
Qed.

Lemma parse_line_command (cfg : Config) (cur text line : string) :
  header_of text = None -> command_of text = Some line ->
  parse_line (cfg, cur) text =
    if String.eqb cur "settings" then
      match Strings.SplitN2 line equals_sign with
      | [k; v] =>
        (mkConfig (<[Strings.TrimSpace k := Strings.TrimSpace v]> (Settings cfg)) (Groups cfg),
         cur)
      | _ => (cfg, cur)
      end
    else if negb (String.eqb cur "") then
      (mkConfig (Settings cfg) (<[cur := default [] (Groups cfg !! cur) ++ [line]]> (Groups cfg)),
       cur)
    else (cfg, cur).
Proof.
  unfold header_of, command_of, parse_line. cbv zeta.
  destruct (_ || _); [discriminate |].
  destruct (_ && _); [discriminate |].
  by intros _ [= <-].
Qed.

(** A line that is no header leaves [currentGroup] alone, and touches no
    group but [currentGroup]. *)
Lemma parse_line_other_group (cfg : Config) (cur text g : string) :
  header_of text = None -> cur <> g ->
  (parse_line (cfg, cur) text).2 = cur /\
  Groups (parse_line (cfg, cur) text).1 !! g = Groups cfg !! g.
Proof.
  intros Hh Hne.
  destruct (command_of text) as [line |] eqn:Hc.
  - rewrite (parse_line_command _ _ _ _ Hh Hc).
    destruct (String.eqb cur "settings").
    + destruct (Strings.SplitN2 line equals_sign) as [| k [| v [| ? ?]]]; done.
    + destruct (negb (String.eqb cur "")); [| done].
      simpl. by rewrite lookup_insert_ne.
  - by rewrite (parse_line_skip _ _ Hh Hc).
Qed.

(** Once [currentGroup] is another section, group [g] stays as it is until
    a header names it again. *)
Lemma parse_lines_other_group (g : string) (lines : list string) :
  Forall (fun text => header_of text <> Some g) lines ->
  forall cfg cur, cur <> g ->
  Groups (parse_lines (cfg, cur) lines).1 !! g = Groups cfg !! g.
Proof.
  induction 1 as [| text lines Hhd _ IH]; intros cfg cur Hne; [reflexivity |].
  unfold parse_lines in *. cbn [foldl].
  destruct (header_of text) as [g' |] eqn:Hh.
  - rewrite (parse_line_header _ _ _ _ Hh).
    assert (g' <> g) by congruence.
    rewrite IH by done.
    destruct (negb (String.eqb g' "settings")); [| done].
    simpl. by rewrite lookup_insert_ne.
  - destruct (parse_line_other_group cfg cur text g Hh Hne) as [Hcur Hg].
    destruct (parse_line (cfg, cur) text) as [cfg1 cur1]. simpl in *. subst cur1.
    by rewrite IH.
Qed.

(** While [currentGroup] is [g], the content lines are appended to group
    [g], up to the next header. *)
Lemma parse_lines_current_group (g : string) (lines : list string) :
  g <> "settings" ->
  Forall (fun text => header_of text <> Some g) lines ->
  forall cfg acc, Groups cfg !! g = Some acc ->
  Groups (parse_lines (cfg, g) lines).1 !! g =
    Some (acc ++ if String.eqb g "" then [] else section_body lines).
Proof.
  intros Hns. induction 1 as [| text lines Hhd Hall IH]; intros cfg acc Hacc.
  { simpl. rewrite Hacc. destruct (String.eqb g ""); by rewrite app_nil_r. }
  unfold parse_lines in *. cbn [foldl section_body].
  destruct (header_of text) as [g' |] eqn:Hh.
  - rewrite (parse_line_header _ _ _ _ Hh).
    assert (g' <> g) by congruence.
    pose proof (parse_lines_other_group g lines Hall) as Hother.
    unfold parse_lines in Hother. rewrite Hother by done.
    destruct (String.eqb g ""); rewrite app_nil_r;
      destruct (negb (String.eqb g' "settings")); simpl;
      rewrite ?lookup_insert_ne; done.
  - destruct (command_of text) as [line |] eqn:Hc.
    + rewrite (parse_line_command _ _ _ _ Hh Hc).
      destruct (String.eqb_spec g "settings") as [| _]; [done |].
      destruct (String.eqb_spec g "") as [-> | Hne]; simpl.
      * by apply IH.
      * rewrite (IH _ (acc ++ [line])).
        -- by rewrite <- app_assoc.
        -- simpl. rewrite lookup_insert_eq. by rewrite Hacc.
    + rewrite (parse_line_skip _ _ Hh Hc). by apply IH.
Qed.

(** C10: a header of group [g] makes [g] the empty list again, whatever it
    held; so when a header of [g] is followed by no other header of [g],
    the parsed group is the content lines after that last header (up to the
    next header of any section, and none at all for the empty name).  The
    lines are those that the scanner delivers; the section [settings] is no
    group. *)
Theorem parseConfig_repeated_header (content : string) (pre post : list string)
    (h g : string) :
  Bufio.scan_lines content = pre ++ h :: post ->
  header_of h = Some g ->
  g <> "settings" ->
  Forall (fun text => header_of text <> Some g) post ->
  (forall cfg cur, Groups (parse_line (cfg, cur) h).1 !! g = Some []) /\
  Groups (parseConfig content) !! g =
    Some (if String.eqb g "" then [] else section_body post).
Proof.
  intros Hscan Hh Hns Hpost.
  assert (forall cfg cur, parse_line (cfg, cur) h =
            (mkConfig (Settings cfg) (<[g := []]> (Groups cfg)), g)) as Hreset.
  { intros cfg cur. rewrite (parse_line_header _ _ _ _ Hh).
    by destruct (String.eqb_spec g "settings"). }
  split.
  - intros cfg cur. rewrite Hreset. simpl. apply lookup_insert_eq.
  - unfold parseConfig. rewrite Hscan.
    unfold parse_lines. rewrite foldl_app. cbn [foldl].
    destruct (foldl parse_line (empty_config, "") pre) as [cfg1 cur1].
    rewrite Hreset.
    pose proof (parse_lines_current_group g post Hns Hpost
                  (mkConfig (Settings cfg1) (<[g := []]> (Groups cfg1))) []) as Hcur.
    unfold parse_lines in Hcur. rewrite Hcur; [done |].
    simpl. apply lookup_insert_eq.
Qed.

Example TrimSpace_samples :
  map Strings.TrimSpace
      ["  echo a  "; String (ascii_of_nat 9) "make" +:+ String (ascii_of_nat 13) "";
       String (ascii_of_nat 194) (String (ascii_of_nat 160) "x y"); "   "; ""] =
  ["echo a"; "make"; "x y"; ""; ""] /\
  Strings.Trim "[[build]]" "[]" = "build" /\
  Strings.Trim "[a]b]" "[]" = "a]b" /\
  Strings.SplitN2 "k = v = w" equals_sign = ["k "; " v = w"] /\
  Strings.SplitN2 "no sign" equals_sign = ["no sign"].
Proof. vm_compute. repeat split. Qed.

(** When every line of the input is shorter than the buffer of the scanner,
    the scanner delivers them all. *)
Lemma fitting_short (ls : list (list ascii)) :
  Forall (fun l => (N.of_nat (length l) < Bufio.MaxScanTokenSize)%N) ls ->
  Bufio.fitting ls = ls.
Proof.
  induction 1 as [| l ls Hl _ IH]; [done |].
  cbn [Bufio.fitting]. apply N.ltb_lt in Hl. by rewrite Hl, IH.
Qed.

(** The scanner gives up at a line that fills its buffer: a line of 65535
    bytes is read like any other, and after one of 65536 bytes nothing is
    read any more. *)
Example scanner_line_limit :
  length (Bufio.scan_lines (text_with_line_of 65535)) = 5 /\
  Bufio.scan_lines (text_with_line_of 65536) = ["[g]"; "a"].
Proof. vm_compute. split; reflexivity. Qed.

Lemma parseConfig_repeated_header_witness :
  let content := "[g]" +:+ LF +:+ "a" +:+ LF +:+ "[h]" +:+ LF +:+ "b" +:+ LF +:+
                 "[g]" +:+ LF +:+ "c" +:+ LF +:+ "  d " +:+ LF +:+ "[k]" +:+ LF +:+ "e" in
  Bufio.scan_lines content = ["[g]"; "a"; "[h]"; "b"] ++ "[g]" :: ["c"; "  d "; "[k]"; "e"] /\
  Groups (parseConfig content) !! "g" = Some ["c"; "d"].
Proof.
  intros content. split; [reflexivity |].
  refine (proj2 (parseConfig_repeated_header content ["[g]"; "a"; "[h]"; "b"]
                   ["c"; "  d "; "[k]"; "e"] "[g]" "g" _ _ _ _)).
  - reflexivity.
  - reflexivity.
  - discriminate.
  - repeat constructor; vm_compute; discriminate.
Defined.

(** ** [mergeConfig] *)

(** The loop [for k, v := range src { dst[k] = v }] gives the same map for
    every order of visit: the entries of [src] over those of [dst]. *)
Lemma assign_all_union {V} (entries : list (string * V)) (dst : gmap string V) :
  NoDup entries.*1 ->
  assign_all entries dst = list_to_map entries ∪ dst.
Proof.
  revert dst. induction entries as [| [k v] entries IH]; intros dst Hnd.
  { simpl. by rewrite (left_id_L ∅ (∪)). }
  apply NoDup_cons in Hnd as [Hk Hnd].
  unfold assign_all in *. cbn [foldl list_to_map foldr fst snd].
  rewrite IH by done.
  rewrite <- insert_union_l.
  symmetry. apply insert_union_r.
  by apply not_elem_of_list_to_map_1.
Qed.

Lemma assign_all_range {V} (src dst : gmap string V) (entries : list (string * V)) :
  entries ≡ₚ map_to_list src ->
  assign_all entries dst = src ∪ dst.
Proof.
  intros Hperm.
  assert (NoDup entries.*1) as Hnd.
  { rewrite Hperm. apply NoDup_fst_map_to_list. }
  rewrite assign_all_union by done.
  f_equal. rewrite <- (list_to_map_to_list src).
  by apply list_to_map_proper.
Qed.

Lemma copy_cmds_id (m : gmap string (list string)) : copy_cmds <$> m = m.
Proof. rewrite <- (map_fmap_id m) at 2. by apply map_fmap_ext. Qed.

Lemma mergeConfig_union (base override : Config) :
  mergeConfig base override =
    mkConfig (Settings override ∪ Settings base) (Groups override ∪ Groups base).
Proof.
  unfold mergeConfig. cbv zeta.
  rewrite !copy_cmds_id.
  rewrite !(assign_all_range _ _ (map_to_list _)) by done.
  by rewrite !(right_id_L ∅ (∪)).
Qed.

Lemma mergeConfig_lookup (base override : Config) :
  (forall g cmds, Groups override !! g = Some cmds ->
     Groups (mergeConfig base override) !! g = Some cmds) /\
  (forall g, Groups override !! g = None ->
     Groups (mergeConfig base override) !! g = Groups base !! g) /\
  (forall k v, Settings override !! k = Some v ->
     Settings (mergeConfig base override) !! k = Some v) /\
  (forall k, Settings override !! k = None ->
     Settings (mergeConfig base override) !! k = Settings base !! k).
Proof.
  rewrite mergeConfig_union. simpl.
  repeat split; intros.
  - by apply lookup_union_Some_l.
  - by apply lookup_union_r.
  - by apply lookup_union_Some_l.
  - by apply lookup_union_r.
Qed.

(** ** [mergeConfig] on the heap: what is written, and where *)

Section HeapMerge.
Import Heap.

Lemma read_slice_mono (h h' : heap) (ext : list (list string)) (sl : slice) (c : list string) :
  arrays h' = arrays h ++ ext ->
  read_slice h sl = Some c -> read_slice h' sl = Some c.
Proof.
  unfold read_slice. intros -> Hr.
  destruct (arrays h !! s_array sl) as [a |] eqn:Ha; [| done].
  by rewrite (lookup_app_l_Some _ _ _ _ Ha).
Qed.

Lemma read_slice_same_arrays (h h' : heap) (sl : slice) :
  arrays h' = arrays h -> read_slice h' sl = read_slice h sl.
Proof. unfold read_slice. by intros ->. Qed.

Lemma alloc_config_extends (h : heap) :
  (alloc_config h).1 = length (structs h) /\
  extends_with h ∅ ∅ (alloc_config h).2.
Proof.
  split; [reflexivity |].
  exists ∅, []. simpl. rewrite app_nil_r.
  repeat split; try done.
Qed.

Lemma extends_struct (h h' : heap) S V :
  extends_with h S V h' ->
  structs h' !! length (structs h) =
    Some (mkObj (length (strmaps h)) (length (slicemaps h))).
Proof.
  intros (G & ext & -> & _). by rewrite list_lookup_middle.
Qed.

Lemma store_setting_extends (h h' : heap) S V (k v : string) :
  extends_with h S V h' ->
  exists h'', store_setting (length (structs h)) k v h' = Some h'' /\
              extends_with h (<[k := v]> S) V h''.
Proof.
  intros Hext. pose proof (extends_struct _ _ _ _ Hext) as Hs.
  destruct Hext as (G & ext & Hst & Hsm & Hgm & Har & Hv).
  unfold store_setting. rewrite Hs. simpl.
  rewrite Hsm, list_lookup_middle by done. simpl.
  eexists. split; [reflexivity |].
  exists G, ext. simpl. split; [done |]. split; [| split; [done |]; split; [done |]].
  - rewrite insert_app_r_alt by done. by rewrite Nat.sub_diag.
  - intros g. destruct (Hv g) as [Hv1 Hv2]. split.
    + rewrite <- Hv1. destruct (G !! g); simpl; [| done].
      by apply read_slice_same_arrays.
    + intros sl Hsl. destruct (Hv2 sl Hsl) as [Hsome Hfresh]. split; [| done].
      by rewrite (read_slice_same_arrays h').
Qed.

Lemma copy_settings_loop (h : heap) (l : list (string * string)) :
  forall h' S V, extends_with h S V h' ->
  exists h'', for_each (fun kv => store_setting (length (structs h)) kv.1 kv.2) l h' = Some h'' /\
              extends_with h (assign_all l S) V h''.
Proof.
  induction l as [| [k v] l IH]; intros h' S V Hext.
  { exists h'. by split. }
  destruct (store_setting_extends _ _ _ _ k v Hext) as (h1 & Hstore & Hext1).
  destruct (IH _ _ _ Hext1) as (h2 & Hloop & Hext2).
  exists h2. split; [| done].
  cbn [for_each fst snd]. rewrite Hstore. simpl. exact Hloop.
Qed.

Lemma read_new_slice (h : heap) (c : list string) :
  read_slice (mkHeap (structs h) (strmaps h) (slicemaps h) (arrays h ++ [c]))
             (mkSlice (length (arrays h)) 0 (length c)) = Some c.
Proof.
  unfold read_slice. simpl. rewrite list_lookup_middle by done. simpl.
  rewrite decide_True by done. by rewrite take_ge.
Qed.

Lemma copy_group_extends (h h' : heap) S V (g : string) (sl : slice) (c : list string) :
  extends_with h S V h' ->
  read_slice h sl = Some c ->
  exists h'',
    ('(sl', h1) ← copy_slice sl h'; store_group (length (structs h)) g sl' h1) = Some h'' /\
    extends_with h S (<[g := c]> V) h''.
Proof.
  intros Hext Hr. pose proof (extends_struct _ _ _ _ Hext) as Hs.
  destruct Hext as (G & ext & Hst & Hsm & Hgm & Har & Hv).
  pose proof (read_slice_mono _ _ _ _ _ Har Hr) as Hr'.
  unfold copy_slice. rewrite Hr'. simpl.
  unfold store_group. simpl. rewrite Hs. simpl.
  rewrite Hgm, list_lookup_middle by done. simpl.
  eexists. split; [reflexivity |].
  set (h1 := mkHeap (structs h') (strmaps h') (slicemaps h') (arrays h' ++ [c])).
  set (new := mkSlice (length (arrays h')) 0 (length c)).
  assert (forall sl0, read_slice
            (mkHeap (structs h') (strmaps h')
                    (<[length (slicemaps h) := <[g := new]> G]> (slicemaps h ++ [G]))
                    (arrays h' ++ [c])) sl0 = read_slice h1 sl0) as Hsame.
  { intros sl0. by apply read_slice_same_arrays. }
  assert (forall sl0 c0, read_slice h' sl0 = Some c0 -> read_slice h1 sl0 = Some c0) as Hmono.
  { intros sl0 c0. by apply (read_slice_mono h' h1 [c]). }
  exists (<[g := new]> G), (ext ++ [c]). simpl.
  split; [done |]. split; [done |]. split; [| split].
  - rewrite insert_app_r_alt by done. by rewrite Nat.sub_diag.
  - by rewrite Har, <- app_assoc.
  - intros g0. destruct (Hv g0) as [Hv1 Hv2].
    destruct (decide (g = g0)) as [<- | Hne].
    + rewrite !lookup_insert_eq. simpl. split.
      * rewrite Hsame. apply read_new_slice.
      * intros sl0 [= <-]. split.
        -- rewrite Hsame. unfold h1, new. rewrite read_new_slice. by eexists.
        -- simpl. rewrite Har, length_app. lia.
    + rewrite !lookup_insert_ne by done. split.
      * rewrite <- Hv1. destruct (G !! g0) as [sl0 |] eqn:Hg0; simpl; [| done].
        destruct (Hv2 sl0 eq_refl) as [[c0 Hc0] _].
        rewrite Hsame, Hc0. by apply Hmono.
      * intros sl0 Hsl0. destruct (Hv2 sl0 Hsl0) as [[c0 Hc0] Hfresh]. split; [| done].
        rewrite Hsame. exists c0. by apply Hmono.
Qed.

Lemma copy_groups_loop (h : heap) (l : list (string * slice)) :
  Forall (fun gs => is_Some (read_slice h gs.2)) l ->
  forall h' S V, extends_with h S V h' ->
  exists h'',
    for_each (fun gc h0 => '(sl, h1) ← copy_slice gc.2 h0;
                           store_group (length (structs h)) gc.1 sl h1) l h' = Some h'' /\
    extends_with h S (assign_all (contents h l) V) h''.
Proof.
  induction 1 as [| [g sl] l [c Hc] _ IH]; intros h' S V Hext.
  { exists h'. by split. }
  destruct (copy_group_extends _ _ _ _ g sl c Hext Hc) as (h1 & Hstep & Hext1).
  destruct (IH _ _ _ Hext1) as (h2 & Hloop & Hext2).
  exists h2. split.
  - cbn [for_each fst snd]. simpl in Hc. rewrite Hstep. simpl. exact Hloop.
  - unfold contents. simpl in *. rewrite Hc. simpl. exact Hext2.
Qed.

Lemma read_config_Some (h : heap) (p : nat) (B : Config) :
  read_config h p = Some B <->
  exists o sm gm,
    structs h !! p = Some o /\
    strmaps h !! f_settings o = Some sm /\
    slicemaps h !! f_groups o = Some gm /\
    map_Forall (fun _ sl => is_Some (read_slice h sl)) gm /\
    B = mkConfig sm (omap (read_slice h) gm).
Proof.
  unfold read_config. split.
  - intros Hr.
    destruct (structs h !! p) as [o |] eqn:Ho; [| done]. simpl in Hr.
    destruct (strmaps h !! f_settings o) as [sm |] eqn:Hs; [| done]. simpl in Hr.
    destruct (slicemaps h !! f_groups o) as [gm |] eqn:Hg; [| done]. simpl in Hr.
    destruct (decide _) as [Hall |]; [| done].
    injection Hr as <-. by exists o, sm, gm.
  - intros (o & sm & gm & Ho & Hs & Hg & Hall & ->).
    rewrite Ho. simpl. rewrite Hs. simpl. rewrite Hg. simpl.
    by rewrite decide_True.
Qed.

(** The result under construction reads as its settings and groups. *)
Lemma read_result (h h' : heap) S V :
  extends_with h S V h' ->
  read_config h' (length (structs h)) = Some (mkConfig S V).
Proof.
  intros Hext. pose proof (extends_struct _ _ _ _ Hext) as Hs.
  destruct Hext as (G & ext & Hst & Hsm & Hgm & Har & Hv).
  apply read_config_Some.
  exists (mkObj (length (strmaps h)) (length (slicemaps h))), S, G. simpl.
  split; [done |]. split; [by rewrite Hsm, list_lookup_middle |].
  split; [by rewrite Hgm, list_lookup_middle |]. split.
  - intros g sl Hsl. by apply (Hv g).
  - f_equal. apply map_eq. intros g. rewrite lookup_omap. symmetry. apply Hv.
Qed.

(** Every configuration of [h] reads the same after the writes. *)
Lemma read_config_preserved (h h' : heap) S V (p : nat) (B : Config) :
  extends_with h S V h' ->
  read_config h p = Some B -> read_config h' p = Some B.
Proof.
  intros (G & ext & Hst & Hsm & Hgm & Har & Hv).
  rewrite !read_config_Some.
  intros (o & sm & gm & Ho & Hs & Hg & Hall & ->).
  exists o, sm, gm.
  split; [rewrite Hst; by apply lookup_app_l_Some |].
  split; [rewrite Hsm; by apply lookup_app_l_Some |].
  split; [rewrite Hgm; by apply lookup_app_l_Some |].
  split.
  - intros g sl Hsl. destruct (Hall g sl Hsl) as [c Hc].
    exists c. by apply (read_slice_mono h h' ext).
  - f_equal. apply map_eq. intros g. rewrite !lookup_omap.
    destruct (gm !! g) as [sl |] eqn:Hsl; simpl; [| done].
    destruct (Hall g sl Hsl) as [c Hc]. rewrite Hc.
    symmetry. by apply (read_slice_mono h h' ext).
Qed.

Lemma contents_keys (h : heap) (l : list (string * slice)) :
  (contents h l).*1 `sublist_of` l.*1.
Proof.
  induction l as [| [g sl] l IH]; [done |].
  unfold contents in *. simpl.
  destruct (read_slice h sl); simpl; by constructor.
Qed.

(** The copied entries are the groups as [h] reads them. *)
Lemma contents_map_to_list (h : heap) (gm : gmap string slice) :
  list_to_map (contents h (map_to_list gm)) = omap (read_slice h) gm.
Proof.
  assert (NoDup (contents h (map_to_list gm)).*1) as Hnd.
  { apply (sublist_NoDup _ (map_to_list gm).*1);
      [apply NoDup_fst_map_to_list | apply contents_keys]. }
  apply map_eq. intros g. apply option_eq. intros c.
  rewrite <- elem_of_list_to_map by done.
  rewrite lookup_omap. unfold contents. rewrite list_elem_of_omap. split.
  - intros ([g' sl] & Hin & Heq). apply elem_of_map_to_list in Hin. simpl in Heq.
    destruct (read_slice h sl) as [c' |] eqn:Hc; [| done].
    injection Heq as <- <-. by rewrite Hin.
  - intros Hb. destruct (gm !! g) as [sl |] eqn:Hsl; [| done]. simpl in Hb.
    exists (g, sl). split; [by apply elem_of_map_to_list |]. simpl. by rewrite Hb.
Qed.

Lemma copy_settings_extends (h h' : heap) S V (p : nat) (B : Config) :
  extends_with h S V h' ->
  read_config h p = Some B ->
  exists h'', copy_settings p (length (structs h)) h' = Some h'' /\
              extends_with h (assign_all (map_to_list (Settings B)) S) V h''.
Proof.
  intros Hext Hp.
  pose proof (read_config_preserved _ _ _ _ _ _ Hext Hp) as Hp'.
  apply read_config_Some in Hp' as (o & sm & gm & Ho & Hs & Hg & Hall & ->).
  unfold copy_settings. rewrite Ho. simpl. rewrite Hs. simpl.
  by apply copy_settings_loop.
Qed.

Lemma copy_groups_extends (h h' : heap) S V (p : nat) (B : Config) :
  extends_with h S V h' ->
  read_config h p = Some B ->
  exists h'', copy_groups p (length (structs h)) h' = Some h'' /\
              extends_with h S (Groups B ∪ V) h''.
Proof.
  intros Hext Hp.
  pose proof Hext as (G & ext & Hst & Hsm & Hgm & Har & Hv).
  apply read_config_Some in Hp as (o & sm & gm & Ho & Hs & Hg & Hall & ->).
  unfold copy_groups.
  rewrite Hst, (lookup_app_l_Some _ _ _ _ Ho). simpl.
  rewrite Hgm, (lookup_app_l_Some _ _ _ _ Hg). simpl.
  destruct (copy_groups_loop h (map_to_list gm)) with (h' := h') (S := S) (V := V)
    as (h2 & Hloop & Hext2); [| done |].
  { apply Forall_forall. intros [g sl] Hin. apply elem_of_map_to_list in Hin.
    by apply (Hall g sl). }
  exists h2. split; [done |].
  rewrite assign_all_union in Hext2.
  - by rewrite contents_map_to_list in Hext2.
  - apply (sublist_NoDup _ (map_to_list gm).*1);
      [apply NoDup_fst_map_to_list | apply contents_keys].
Qed.

(** C5: [mergeConfig] builds a new configuration in which every group and
    every setting of the override stands as the override has it (a group as
    a whole list), and every other group and setting is the base's.  It
    writes to the new struct, its two new maps and the new arrays of the
    copied command lists only: every object of the heap it was given is as
    before, so the base (and the override) read as they did. *)
Theorem mergeConfig_override_wins (h : heap) (pb po : nat) (B O : Config) :
  read_config h pb = Some B ->
  read_config h po = Some O ->
  exists (pr : nat) (h' : heap),
    mergeConfig_ptr pb po h = Some (pr, h') /\
    read_config h' pr = Some (mergeConfig B O) /\
    (forall g cmds, Groups O !! g = Some cmds ->
       Groups (mergeConfig B O) !! g = Some cmds) /\
    (forall g, Groups O !! g = None ->
       Groups (mergeConfig B O) !! g = Groups B !! g) /\
    (forall k v, Settings O !! k = Some v ->
       Settings (mergeConfig B O) !! k = Some v) /\
    (forall k, Settings O !! k = None ->
       Settings (mergeConfig B O) !! k = Settings B !! k) /\
    read_config h' pb = Some B /\
    read_config h' po = Some O /\
    structs h `prefix_of` structs h' /\
    strmaps h `prefix_of` strmaps h' /\
    slicemaps h `prefix_of` slicemaps h' /\
    arrays h `prefix_of` arrays h'.
Proof.
  intros HB HO.
  destruct (alloc_config_extends h) as [Hpr Hext0].
  destruct (copy_settings_extends _ _ _ _ _ _ Hext0 HB) as (h1 & Hc1 & Hext1).
  destruct (copy_groups_extends _ _ _ _ _ _ Hext1 HB) as (h2 & Hc2 & Hext2).
  destruct (copy_settings_extends _ _ _ _ _ _ Hext2 HO) as (h3 & Hc3 & Hext3).
  destruct (copy_groups_extends _ _ _ _ _ _ Hext3 HO) as (h4 & Hc4 & Hext4).
  exists (length (structs h)), h4.
  destruct (mergeConfig_lookup B O) as (Hg1 & Hg2 & Hs1 & Hs2).
  split; [| split; [| split; [done | split; [done | split; [done | split; [done |]]]]]].
  - unfold mergeConfig_ptr.
    destruct (alloc_config h) as [pr h0] eqn:Halloc. simpl in *. subst pr.
    rewrite Hc1. simpl. rewrite Hc2. simpl. rewrite Hc3. simpl. by rewrite Hc4.
  - rewrite (read_result _ _ _ _ Hext4). f_equal.
    rewrite mergeConfig_union.
    rewrite !(assign_all_range _ _ (map_to_list _)) by done.
    by rewrite !(right_id_L ∅ (∪)).
  - split; [by apply (read_config_preserved _ _ _ _ _ _ Hext4) |].
    split; [by apply (read_config_preserved _ _ _ _ _ _ Hext4) |].
    destruct Hext4 as (G & ext & -> & -> & -> & -> & _).
    repeat split; by apply prefix_app_r.
Qed.

Lemma mergeConfig_override_wins_witness :
  read_config sample_heap 0 = Some sample_base /\
  read_config sample_heap 1 = Some sample_override /\
  Groups (mergeConfig sample_base sample_override) !! "g" = Some ["x"] /\
  Groups (mergeConfig sample_base sample_override) !! "h" = Some ["c"] /\
  Settings (mergeConfig sample_base sample_override) !! "a" = Some "1" /\
  Settings (mergeConfig sample_base sample_override) !! "b" = Some "3" /\
  exists pr h', mergeConfig_ptr 0 1 sample_heap = Some (pr, h') /\
                read_config h' pr = Some (mergeConfig sample_base sample_override) /\
                read_config h' 0 = Some sample_base.
Proof.
  assert (read_config sample_heap 0 = Some sample_base) as HB
    by (vm_compute; reflexivity).
  assert (read_config sample_heap 1 = Some sample_override) as HO
    by (vm_compute; reflexivity).
  destruct (mergeConfig_override_wins sample_heap 0 1 sample_base sample_override HB HO)
    as (pr & h' & Hm & Hr & Hg1 & Hg2 & Hs1 & Hs2 & HB' & _).
  split; [exact HB |]. split; [exact HO |].
  split; [apply Hg1; vm_compute; reflexivity |].
  split; [rewrite Hg2; vm_compute; reflexivity |].
  split; [rewrite Hs2; vm_compute; reflexivity |].
  split; [apply Hs1; vm_compute; reflexivity |].
  exists pr, h'. by repeat split.
Defined.

End HeapMerge.

(** ** The fan-out: invariants of the interleaving *)

Section EngineFacts.
Import Engine.

Variable capacity : nat.
Variable cmds : list string.
Variable os : nat -> Cmd -> outcome.

Local Abbreviation step := (Engine.step capacity cmds os).
Local Abbreviation step_task := (Engine.step_task capacity cmds os).
Local Abbreviation exec := (Engine.exec capacity cmds os).
Local Abbreviation rest_of := (Engine.rest_of cmds os).
Local Abbreviation task_trace := (Engine.task_trace cmds os).
Local Abbreviation expected := (Engine.expected cmds os).
Local Abbreviation steps_left := (Engine.steps_left cmds os).

(** Closes a case of [step_task]: the step taken, and the program point
    [pc] that it leads to. *)
Ltac step_to H pc :=
  injection H as <- <-; exists pc; simpl; repeat split; try done; lia.

(** Everything a step of task [i] does, in one statement. *)
Lemma step_task_inv (i : nat) (s s' : state) (l : label) :
  step_task i s = Some (l, s') ->
  exists t pc',
    tasks s !! i = Some t /\
    owner l = Task i /\
    main_pc s' = main_pc s /\
    tasks s' = <[i := mkTask (t_dir t) pc']> (tasks s) /\
    rest_of i t = l :: rest_of i (mkTask (t_dir t) pc') /\
    worker s' + weight (holding (t_pc t)) = worker s + weight (holding pc') /\
    wg s' + weight (live (t_pc t)) = wg s + weight (live pc') /\
    (worker s <= capacity -> worker s' <= capacity).
Proof.
  unfold Engine.step_task. intros Hstep.
  destruct (tasks s !! i) as [[dir pc] |] eqn:Ht; [| discriminate].
  exists (mkTask dir pc). simpl in *.
  destruct pc as [| | | err | lines werr | err | | | |].
  - destruct (Nat.ltb_spec (worker s) capacity); [| discriminate].
    step_to Hstep PBanner.
  - step_to Hstep PStart.
  - unfold Engine.rest_of. simpl.
    destruct (os i (command cmds dir)) as [err | lines werr] eqn:Hos.
    + step_to Hstep (PStartFailed err).
    + step_to Hstep (PScan lines werr).
  - step_to Hstep PRelease.
  - destruct lines as [| line lines]; [destruct werr as [err |] |].
    + step_to Hstep (PRunError err).
    + step_to Hstep PFinish.
    + step_to Hstep (PScan lines werr).
  - step_to Hstep PFinish.
  - step_to Hstep PRelease.
  - destruct (worker s) as [| n] eqn:Hw; [discriminate |].
    step_to Hstep PWgDone.
  - destruct (wg s) as [| n] eqn:Hw; [discriminate |].
    step_to Hstep PDone.
  - discriminate.
Qed.

Lemma step_main_inv (s s' : state) (l : label) :
  step_main s = Some (l, s') ->
  owner l = Main /\
  worker s' = worker s /\
  match main_pc s with
  | MLoop (dir :: rest) =>
    l = LAdd /\ main_pc s' = MGo dir rest /\ wg s' = S (wg s) /\ tasks s' = tasks s
  | MGo dir rest =>
    l = LGo (length (tasks s)) /\ main_pc s' = MLoop rest /\ wg s' = wg s /\
    tasks s' = tasks s ++ [mkTask dir PAcquire]
  | MLoop [] =>
    l = LWaitReturn /\ main_pc s' = MReturned /\ wg s = 0 /\ wg s' = 0 /\
    tasks s' = tasks s
  | MReturned => False
  end.
Proof.
  unfold step_main. intros Hstep.
  destruct (main_pc s) as [[| dir rest] | dir rest |].
  - destruct (wg s) eqn:Hwg; [| discriminate].
    injection Hstep as <- <-. simpl. by rewrite ?Hwg.
  - by injection Hstep as <- <-.
  - by injection Hstep as <- <-.
  - discriminate.
Qed.

Lemma step_cases (s s' : state) (t : tid) (l : label) :
  step s t = Some (l, s') ->
  main_pc s <> MReturned /\
  ((t = Main /\ step_main s = Some (l, s')) \/
   (exists i, t = Task i /\ step_task i s = Some (l, s'))).
Proof.
  unfold Engine.step. intros Hstep.
  destruct (main_pc s); try discriminate; (split; [done |]);
    destruct t as [| i]; eauto.
Qed.

Lemma of_task_cons (j : nat) (l : label) (tr : list label) :
  of_task j (l :: tr) = (if owned_by j l then [l] else []) ++ of_task j tr.
Proof. unfold of_task. simpl. by destruct (owned_by j l). Qed.

(** A step takes its label off what its thread has still to do, and leaves
    the other threads' futures as they are. *)
Lemma step_expected (s s' : state) (t : tid) (l : label) :
  step s t = Some (l, s') ->
  forall j, expected s j = (if owned_by j l then [l] else []) ++ expected s' j.
Proof.
  intros Hstep j. apply step_cases in Hstep as [_ [[-> Hm] | (i & -> & Ht)]].
  - apply step_main_inv in Hm as (Hown & _ & Hm).
    unfold owned_by. rewrite Hown. simpl.
    unfold Engine.expected.
    destruct (main_pc s) as [[| dir rest] | dir rest |]; [| | | done].
    + destruct Hm as (_ & -> & _ & _ & ->). done.
    + destruct Hm as (_ & -> & _ & ->). done.
    + destruct Hm as (_ & -> & _ & ->). simpl.
      destruct (lt_eq_lt_dec j (length (tasks s))) as [[Hlt | ->] | Hgt].
      * rewrite lookup_app_l by done.
        destruct (tasks s !! j) eqn:Hj; [done |].
        apply lookup_ge_None in Hj. lia.
      * rewrite list_lookup_middle by done.
        rewrite (proj2 (lookup_ge_None _ _)) by lia.
        by rewrite Nat.sub_diag.
      * rewrite (proj2 (lookup_ge_None (tasks s) j)) by lia.
        rewrite (proj2 (lookup_ge_None (tasks s ++ _) j)) by (rewrite length_app; simpl; lia).
        rewrite length_app. simpl.
        replace (j - length (tasks s)) with (S (j - (length (tasks s) + 1))) by lia.
        done.
  - apply step_task_inv in Ht as (t & pc' & Hi & Hown & Hmain & Htasks & Hrest & _).
    unfold owned_by. rewrite Hown.
    unfold Engine.expected. rewrite Hmain, Htasks, length_insert.
    destruct (Nat.eqb_spec i j) as [-> | Hne].
    + rewrite Hi, list_lookup_insert_eq by (by eapply lookup_lt_Some). done.
    + by rewrite list_lookup_insert_ne.
Qed.

(** What a task has to do at the beginning of an execution is what it does
    in the execution followed by what it has to do at the end. *)
Lemma exec_expected (s s' : state) (tr : list label) :
  exec s tr s' ->
  forall j, expected s j = of_task j tr ++ expected s' j.
Proof.
  induction 1 as [s | s t l s1 tr s2 Hstep _ IH]; intros j; [done |].
  rewrite of_task_cons, <- app_assoc, <- IH.
  by apply (step_expected _ _ t).
Qed.

Lemma exec_app (s1 s2 s3 : state) (tr1 tr2 : list label) :
  exec s1 tr1 s2 -> exec s2 tr2 s3 -> exec s1 (tr1 ++ tr2) s3.
Proof.
  induction 1 as [s | s t l s1 tr s2 Hstep _ IH]; intros Hexec; [done |].
  simpl. econstructor; [exact Hstep | by apply IH].
Qed.

Lemma run_exec (s s' : state) (sched : list tid) (tr : list label) :
  run capacity cmds os s sched = Some (tr, s') -> exec s tr s'.
Proof.
  revert s tr. induction sched as [| t sched IH]; intros s tr Hrun; simpl in Hrun.
  { injection Hrun as <- <-. constructor. }
  destruct (step s t) as [[l s1] |] eqn:Hstep; [| discriminate].
  destruct (run capacity cmds os s1 sched) as [[tr1 s2] |] eqn:Hrest; [| discriminate].
  injection Hrun as <- <-.
  econstructor; [exact Hstep | by apply IH].
Qed.

Lemma count_cons {A} (p : A -> bool) (x : A) (l : list A) :
  count p (x :: l) = weight (p x) + count p l.
Proof. unfold count. simpl. by destruct (p x). Qed.

Lemma count_app {A} (p : A -> bool) (l1 l2 : list A) :
  count p (l1 ++ l2) = count p l1 + count p l2.
Proof. unfold count. by rewrite List.filter_app, length_app. Qed.

Lemma count_insert {A} (p : A -> bool) (l : list A) (i : nat) (x y : A) :
  l !! i = Some x ->
  count p (<[i := y]> l) + weight (p x) = count p l + weight (p y).
Proof.
  revert i. induction l as [| a l IH]; intros [| i] Hi; try discriminate.
  - injection Hi as ->. simpl. rewrite !count_cons. lia.
  - simpl in *. rewrite !count_cons. specialize (IH i Hi). lia.
Qed.

Lemma count_zero {A} (p : A -> bool) (l : list A) (i : nat) (x : A) :
  count p l = 0 -> l !! i = Some x -> p x = false.
Proof.
  revert i. induction l as [| a l IH]; intros [| i] Hc Hi; try discriminate;
    rewrite count_cons in Hc.
  - injection Hi as ->. destruct (p x); [simpl in Hc; lia | done].
  - apply (IH i); [lia | done].
Qed.

Lemma count_positive {A} (p : A -> bool) (l : list A) :
  0 < count p l -> exists i x, l !! i = Some x /\ p x = true.
Proof.
  induction l as [| a l IH]; [unfold count; simpl; lia |].
  rewrite count_cons. destruct (p a) eqn:Hp.
  - intros _. by exists 0, a.
  - simpl. intros Hpos. destruct (IH Hpos) as (i & x & Hi & Hx). by exists (S i), x.
Qed.

Lemma invariant_init (dirs : list string) : invariant capacity (init dirs).
Proof. unfold invariant, holders, alive, count. simpl. repeat split; (lia || done). Qed.

Lemma invariant_step (s s' : state) (t : tid) (l : label) :
  invariant capacity s -> step s t = Some (l, s') -> invariant capacity s'.
Proof.
  intros (Hw & Hcap & Hwg & _) Hstep.
  apply step_cases in Hstep as [Hrun [[-> Hm] | (i & -> & Ht)]].
  - apply step_main_inv in Hm as (_ & Hw' & Hm).
    unfold invariant, holders, alive in *.
    destruct (main_pc s) as [[| dir rest] | dir rest |]; [| | | done].
    + destruct Hm as (_ & -> & Hwg0 & Hwg0' & ->). simpl in *.
      repeat split; (lia || done).
    + destruct Hm as (_ & -> & -> & ->). simpl in *.
      repeat split; (lia || done).
    + destruct Hm as (_ & -> & -> & ->). simpl in *.
      rewrite !count_app. unfold count at 2 4. simpl.
      repeat split; (lia || done).
  - apply step_task_inv in Ht as (t & pc' & Hi & _ & Hmain & Htasks & _ & Hw' & Hwg' & Hcap').
    unfold invariant, holders, alive in *. rewrite Hmain, Htasks.
    pose proof (count_insert (fun t => holding (t_pc t)) _ _ _ (mkTask (t_dir t) pc') Hi) as Hh.
    pose proof (count_insert (fun t => live (t_pc t)) _ _ _ (mkTask (t_dir t) pc') Hi) as Hl.
    simpl in Hh, Hl.
    repeat split; (lia || done || auto).
Qed.

Lemma invariant_exec (s s' : state) (tr : list label) :
  invariant capacity s -> exec s tr s' -> invariant capacity s'.
Proof.
  intros Hinv Hexec. induction Hexec as [s | s t l s1 tr s2 Hstep _ IH]; [done |].
  apply IH. by apply (invariant_step s s1 t l).
Qed.

(** *** Every run comes to its end *)

Lemma sum_below_ext (n : nat) (f g : nat -> nat) :
  (forall j, j < n -> f j = g j) -> sum_below n f = sum_below n g.
Proof.
  induction n as [| n IH]; intros Hfg; [done |].
  simpl. rewrite IH by (intros; apply Hfg; lia). rewrite Hfg by lia. done.
Qed.

Lemma sum_below_bump (n i : nat) (f g : nat -> nat) :
  i < n ->
  (forall j, j < n -> f j = weight (i =? j) + g j) ->
  sum_below n f = S (sum_below n g).
Proof.
  induction n as [| n IH]; intros Hi Hfg; [lia |].
  simpl. rewrite (Hfg n) by lia.
  destruct (Nat.eqb_spec i n) as [-> | Hne]; simpl.
  - rewrite (sum_below_ext n f g); [lia |].
    intros j Hj. rewrite Hfg by lia.
    destruct (Nat.eqb_spec n j); [lia | done].
  - rewrite IH; [lia | lia |]. intros j Hj. apply Hfg. lia.
Qed.

Lemma sum_below_zero (n : nat) (f : nat -> nat) :
  (forall j, f j = 0) -> sum_below n f = 0.
Proof. intros Hf. induction n as [| n IH]; simpl; [done |]. rewrite IH, Hf. done. Qed.

(** Every step is one step less to go. *)
Lemma steps_left_step (s s' : state) (t : tid) (l : label) :
  step s t = Some (l, s') -> steps_left s = S (steps_left s').
Proof.
  intros Hstep. pose proof (step_expected _ _ _ _ Hstep) as Hexp.
  unfold Engine.steps_left.
  apply step_cases in Hstep as [_ [[-> Hm] | (i & -> & Ht)]].
  - apply step_main_inv in Hm as (Hown & _ & Hm).
    assert (total s' = total s /\ main_left (main_pc s) = S (main_left (main_pc s')))
      as [-> Hleft].
    { unfold total.
      destruct (main_pc s) as [[| dir rest] | dir rest |]; [| | | done].
      - destruct Hm as (_ & -> & _ & _ & ->). simpl. lia.
      - destruct Hm as (_ & -> & _ & ->). simpl. lia.
      - destruct Hm as (_ & -> & _ & ->). rewrite length_app. simpl. lia. }
    rewrite Hleft. simpl. f_equal. f_equal.
    apply sum_below_ext. intros j _. rewrite Hexp.
    unfold owned_by. by rewrite Hown.
  - apply step_task_inv in Ht as (t & pc' & Hi & Hown & Hmain & Htasks & _).
    assert (total s' = total s) as ->.
    { unfold total. by rewrite Hmain, Htasks, length_insert. }
    rewrite Hmain.
    rewrite (sum_below_bump (total s) i (fun j => length (expected s j))
                            (fun j => length (expected s' j))); [lia | |].
    + unfold total. apply lookup_lt_Some in Hi. lia.
    + intros j _. rewrite Hexp. unfold owned_by. rewrite Hown.
      by destruct (i =? j).
Qed.

Lemma exec_steps_left (s s' : state) (tr : list label) :
  exec s tr s' -> steps_left s = length tr + steps_left s'.
Proof.
  induction 1 as [s | s t l s1 tr s2 Hstep _ IH]; [done |].
  rewrite (steps_left_step _ _ _ _ Hstep), IH. done.
Qed.

(** When [main] has returned every task is over. *)
Lemma returned_all_done (s : state) :
  invariant capacity s -> main_pc s = MReturned ->
  Forall (fun t => t_pc t = PDone) (tasks s) /\
  worker s = 0 /\
  forall j, expected s j = [].
Proof.
  intros (Hw & _ & Hwg & Hret) Hmain. specialize (Hret Hmain).
  rewrite Hmain in Hwg. simpl in Hwg.
  assert (alive s = 0) as Halive by lia.
  assert (Forall (fun t => t_pc t = PDone) (tasks s)) as Hall.
  { apply Forall_lookup. intros i t Hi.
    pose proof (count_zero _ _ _ _ Halive Hi) as Hl. simpl in Hl.
    by destruct (t_pc t). }
  split; [done |]. split.
  - rewrite Hw. unfold holders.
    destruct (Nat.eq_dec (count (fun t => holding (t_pc t)) (tasks s)) 0) as [| Hne]; [done |].
    destruct (count_positive (fun t => holding (t_pc t)) (tasks s)) as (i & t & Hi & Hh); [lia |].
    rewrite Forall_lookup in Hall. rewrite (Hall i t Hi) in Hh. done.
  - intros j. unfold Engine.expected. rewrite Hmain. simpl.
    destruct (tasks s !! j) as [t |] eqn:Hj.
    + rewrite Forall_lookup in Hall. unfold Engine.rest_of. by rewrite (Hall j t Hj).
    + done.
Qed.

Lemma task_can_step (s : state) (i : nat) (t : task) :
  main_pc s <> MReturned ->
  tasks s !! i = Some t ->
  t_pc t <> PDone ->
  (t_pc t = PAcquire -> worker s < capacity) ->
  (t_pc t = PRelease -> 0 < worker s) ->
  (t_pc t = PWgDone -> 0 < wg s) ->
  exists l s', step s (Task i) = Some (l, s').
Proof.
  intros Hrun Hi Hnd Hacq Hrel Hdone.
  unfold Engine.step, Engine.step_task. rewrite Hi.
  destruct (main_pc s); [| | done];
    (destruct (t_pc t) as [| | | err | [| line lines] [err |] | err | | | |];
     [ specialize (Hacq eq_refl); apply Nat.ltb_lt in Hacq; rewrite Hacq
     | | destruct (os i (command cmds (t_dir t)))
     | | | | | | |
     | specialize (Hrel eq_refl); destruct (worker s); [lia |]
     | specialize (Hdone eq_refl); destruct (wg s); [lia |]
     | done ]; eauto).
Qed.

(** No deadlock: with a capacity of at least one, some thread can move
    until [main] has returned. *)
Lemma progress (s : state) :
  1 <= capacity -> invariant capacity s -> main_pc s <> MReturned ->
  exists t l s', step s t = Some (l, s').
Proof.
  intros Hcap (Hw & _ & Hwg & _) Hrun.
  destruct (main_pc s) as [[| dir rest] | dir rest |] eqn:Hmain; [| | | done].
  - simpl in Hwg. rewrite Nat.add_0_r in Hwg.
    destruct (wg s) as [| n] eqn:Hn.
    { exists Main. unfold Engine.step, step_main. rewrite Hmain, Hn. eauto. }
    destruct (Nat.eq_dec (holders s) 0) as [Hzero | Hpos].
    + destruct (count_positive (fun t => live (t_pc t)) (tasks s)) as (i & t & Hi & Hl).
      { fold (alive s). lia. }
      pose proof (count_zero _ _ _ _ Hzero Hi) as Hh. simpl in Hh, Hl.
      destruct (task_can_step s i t) as (l & s' & Hstep).
      * by rewrite Hmain.
      * done.
      * intros Hpc. by rewrite Hpc in Hl.
      * intros _. lia.
      * intros Hpc. by rewrite Hpc in Hh.
      * intros _. lia.
      * by exists (Task i), l, s'.
    + destruct (count_positive (fun t => holding (t_pc t)) (tasks s)) as (i & t & Hi & Hh).
      { fold (holders s). lia. }
      simpl in Hh.
      destruct (task_can_step s i t) as (l & s' & Hstep).
      * by rewrite Hmain.
      * done.
      * intros Hpc. by rewrite Hpc in Hh.
      * intros Hpc. by rewrite Hpc in Hh.
      * intros _. lia.
      * intros Hpc. by rewrite Hpc in Hh.
      * by exists (Task i), l, s'.
  - exists Main. unfold Engine.step, step_main. rewrite Hmain. eauto.
  - exists Main. unfold Engine.step, step_main. rewrite Hmain. eauto.
Qed.

Lemma returned_dec (s : state) : {main_pc s = MReturned} + {main_pc s <> MReturned}.
Proof. destruct (main_pc s); (by left) || (by right). Qed.

(** Hence every execution can be carried on to the return of [main]. *)
Lemma can_finish (s : state) :
  1 <= capacity -> invariant capacity s ->
  exists tr s', exec s tr s' /\ main_pc s' = MReturned.
Proof.
  intros Hcap. remember (steps_left s) as n eqn:Hn. revert s Hn.
  induction n as [| n IH]; intros s Hn Hinv.
  - destruct (returned_dec s) as [Hret | Hrun].
    { exists [], s. split; [constructor | done]. }
    destruct (progress s Hcap Hinv Hrun) as (t & l & s' & Hstep).
    rewrite (steps_left_step _ _ _ _ Hstep) in Hn. lia.
  - destruct (returned_dec s) as [Hret | Hrun].
    { exists [], s. split; [constructor | done]. }
    destruct (progress s Hcap Hinv Hrun) as (t & l & s' & Hstep).
    rewrite (steps_left_step _ _ _ _ Hstep) in Hn. injection Hn as Hn.
    destruct (IH s' Hn (invariant_step _ _ _ _ Hinv Hstep)) as (tr & s2 & Hexec & Hret).
    exists (l :: tr), s2. split; [| done]. by econstructor.
Qed.

Lemma total_step (s s' : state) (t : tid) (l : label) :
  step s t = Some (l, s') -> total s' = total s.
Proof.
  intros Hstep. unfold total.
  apply step_cases in Hstep as [_ [[-> Hm] | (i & -> & Ht)]].
  - apply step_main_inv in Hm as (_ & _ & Hm).
    destruct (main_pc s) as [[| dir rest] | dir rest |]; [| | | done].
    + destruct Hm as (_ & -> & _ & _ & ->). simpl. lia.
    + destruct Hm as (_ & -> & _ & ->). simpl. lia.
    + destruct Hm as (_ & -> & _ & ->). rewrite length_app. simpl. lia.
  - apply step_task_inv in Ht as (t & pc' & _ & _ & Hmain & Htasks & _).
    by rewrite Hmain, Htasks, length_insert.
Qed.

Lemma total_exec (s s' : state) (tr : list label) :
  exec s tr s' -> total s' = total s.
Proof.
  induction 1 as [s | s t l s1 tr s2 Hstep _ IH]; [done |].
  rewrite IH. by apply (total_step _ _ t l).
Qed.

Lemma expected_init (dirs : list string) (j : nat) :
  expected (init dirs) j =
    match dirs !! j with Some dir => task_trace j dir | None => [] end.
Proof. unfold Engine.expected. simpl. by rewrite Nat.sub_0_r. Qed.

(** In a run that reached the return of [main], every task did all of what
    it does alone, in that order, and nothing else. *)
Lemma complete_projection (dirs : list string) (tr : list label) (s : state) :
  exec (init dirs) tr s -> main_pc s = MReturned ->
  forall j, of_task j tr =
    match dirs !! j with Some dir => task_trace j dir | None => [] end.
Proof.
  intros Hexec Hret j.
  pose proof (invariant_exec _ _ _ (invariant_init dirs) Hexec) as Hinv.
  destruct (returned_all_done s Hinv Hret) as (_ & _ & Hnil).
  rewrite <- expected_init, (exec_expected _ _ _ Hexec j), Hnil.
  by rewrite app_nil_r.
Qed.

(** A task that is over did all of what it does alone. *)
Lemma done_projection (dirs : list string) (tr : list label) (s : state) (i : nat) (t : task) :
  exec (init dirs) tr s -> tasks s !! i = Some t -> t_pc t = PDone ->
  exists dir, dirs !! i = Some dir /\ of_task i tr = task_trace i dir.
Proof.
  intros Hexec Hi Hpc.
  pose proof (total_exec _ _ _ Hexec) as Htotal. unfold total in Htotal. simpl in Htotal.
  pose proof (lookup_lt_Some _ _ _ Hi) as Hlt.
  destruct (dirs !! i) as [dir |] eqn:Hd.
  - exists dir. split; [done |].
    pose proof (exec_expected _ _ _ Hexec i) as Hexp.
    rewrite expected_init, Hd in Hexp.
    unfold Engine.expected in Hexp at 1. rewrite Hi in Hexp.
    unfold Engine.rest_of in Hexp. rewrite Hpc in Hexp.
    by rewrite app_nil_r in Hexp.
  - apply lookup_ge_None in Hd. lia.
Qed.

(** *** Counting what was done *)

Lemma count_nil {A} (p : A -> bool) : count p [] = 0.
Proof. reflexivity. Qed.

Lemma count_map_zero {A B} (q : B -> bool) (f : A -> B) (l : list A) :
  (forall x, q (f x) = false) -> count q (map f l) = 0.
Proof.
  intros Hq. induction l as [| x l IH]; [done |].
  simpl. rewrite count_cons, Hq, IH. done.
Qed.

Lemma printed_cons (l : label) (tr : list label) :
  printed (l :: tr) =
    match l with LPrint _ e => e :: printed tr | _ => printed tr end.
Proof. unfold printed. by destruct l. Qed.

Lemma printed_app (tr1 tr2 : list label) :
  printed (tr1 ++ tr2) = printed tr1 ++ printed tr2.
Proof. unfold printed. apply omap_app. Qed.

Lemma count_printed (p : event -> bool) (tr : list label) :
  count p (printed tr) = count (prints p) tr.
Proof.
  induction tr as [| l tr IH]; [done |].
  rewrite printed_cons, count_cons. destruct l; simpl; rewrite ?count_cons; lia.
Qed.

(** A count over a trace is the sum of the counts over its tasks, for what
    [main] does not do itself. *)
Lemma count_by_task (q : label -> bool) (n : nat) (tr : list label) :
  (forall l, owner l = Main -> q l = false) ->
  (forall j, n <= j -> of_task j tr = []) ->
  count q tr = sum_below n (fun j => count q (of_task j tr)).
Proof.
  intros Hq. induction tr as [| l tr IH]; intros Hn.
  { by rewrite sum_below_zero. }
  assert (forall j, n <= j -> of_task j tr = []) as Hn'.
  { intros j Hj. specialize (Hn j Hj). rewrite of_task_cons in Hn.
    by apply app_eq_nil in Hn as [_ ?]. }
  rewrite count_cons, (IH Hn').
  destruct (owner l) as [| i] eqn:Hown.
  - rewrite (Hq l Hown). cbn [weight]. rewrite Nat.add_0_l.
    apply sum_below_ext. intros j _.
    rewrite of_task_cons. unfold owned_by. by rewrite Hown.
  - assert (i < n) as Hi.
    { destruct (Nat.lt_ge_cases i n) as [| Hge]; [done |].
      specialize (Hn i Hge). rewrite of_task_cons in Hn.
      unfold owned_by in Hn. rewrite Hown, Nat.eqb_refl in Hn. done. }
    destruct (q l) eqn:Hl; cbn [weight].
    + rewrite Nat.add_1_l. symmetry. apply (sum_below_bump n i); [done |]. intros j _.
      rewrite of_task_cons. unfold owned_by. rewrite Hown.
      destruct (i =? j); cbn [weight app]; [| done]. by rewrite count_cons, Hl.
    + rewrite Nat.add_0_l. apply sum_below_ext. intros j _.
      rewrite of_task_cons. unfold owned_by. rewrite Hown.
      destruct (i =? j); cbn [app]; [| done]. by rewrite count_cons, Hl.
Qed.

Lemma complete_count (q : label -> bool) (dirs : list string) (tr : list label) (s : state) :
  (forall l, owner l = Main -> q l = false) ->
  exec (init dirs) tr s -> main_pc s = MReturned ->
  count q tr =
    sum_below (length dirs)
      (fun j => match dirs !! j with
                | Some dir => count q (task_trace j dir)
                | None => 0
                end).
Proof.
  intros Hq Hexec Hret.
  pose proof (complete_projection dirs tr s Hexec Hret) as Hproj.
  rewrite (count_by_task q (length dirs)); [| done |].
  - apply sum_below_ext. intros j _. rewrite Hproj. by destruct (dirs !! j).
  - intros j Hj. rewrite Hproj. by rewrite (proj2 (lookup_ge_None dirs j)).
Qed.

Lemma printed_output_lines (i : nat) (dir : string) (lines : list string) :
  printed (map (fun l => LPrint i (OutputLine dir l)) lines) = map (OutputLine dir) lines.
Proof.
  induction lines as [| line lines IH]; [done |].
  cbn [map]. by rewrite printed_cons, IH.
Qed.

Lemma printed_task_trace (i : nat) (dir : string) :
  printed (task_trace i dir) = task_output cmds os i dir.
Proof.
  unfold Engine.task_trace, task_output, started_rest, scan_rest, closing.
  rewrite (printed_cons (LSend i)), (printed_cons (LPrint i _)), (printed_cons (LStart i _)).
  f_equal.
  destruct (os i (command cmds dir)) as [err | lines werr]; [done |].
  rewrite printed_app, printed_output_lines.
  f_equal. by destruct werr.
Qed.

Lemma task_trace_counts (i : nat) (dir : string) :
  count (prints is_start_banner) (task_trace i dir) = 1 /\
  count (prints is_done_banner) (task_trace i dir) =
    (if starts (os i (command cmds dir)) then 1 else 0) /\
  count (prints is_start_failed) (task_trace i dir) =
    (if starts (os i (command cmds dir)) then 0 else 1) /\
  count is_start (task_trace i dir) = 1.
Proof.
  unfold Engine.task_trace, started_rest, scan_rest, closing.
  destruct (os i (command cmds dir)) as [err | lines [err |]];
    rewrite ?count_cons, ?count_app, ?count_cons, ?count_nil;
    rewrite ?count_map_zero by done; simpl; done.
Qed.

(** A task sends once, then works, then receives once, and calls
    [wg.Done()] last. *)
Lemma task_trace_shape (i : nat) (dir : string) :
  exists body,
    task_trace i dir = LSend i :: body ++ [LRecv i; LWgDone i] /\
    count is_recv body = 0 /\ count is_send body = 0.
Proof.
  unfold Engine.task_trace, started_rest, scan_rest, closing.
  destruct (os i (command cmds dir)) as [err | lines werr].
  - exists [LPrint i (StartBanner dir); LStart i (command cmds dir);
            LPrint i (StartFailed dir err)].
    by repeat split.
  - exists (LPrint i (StartBanner dir) :: LStart i (command cmds dir) ::
            map (fun l => LPrint i (OutputLine dir l)) lines ++
            LWait i :: match werr with Some err => [LPrint i (RunError dir err)] | None => [] end ++
            [LPrint i (DoneBanner dir)]).
    split.
    + simpl. do 3 f_equal. rewrite <- !app_assoc. simpl. do 2 f_equal.
      by rewrite <- app_assoc.
    + destruct werr; rewrite ?count_cons, ?count_app, ?count_cons, ?count_nil;
        rewrite ?count_map_zero by done; simpl; done.
Qed.

Lemma count_le {A} (p q : A -> bool) (l : list A) :
  (forall x, p x = true -> q x = true) -> count p l <= count q l.
Proof.
  intros Hpq. induction l as [| x l IH]; [done |].
  rewrite !count_cons. destruct (p x) eqn:Hp.
  - rewrite (Hpq x Hp). simpl. lia.
  - destruct (q x); simpl; lia.
Qed.

Lemma sum_below_add (n : nat) (f g : nat -> nat) :
  sum_below n (fun j => f j + g j) = sum_below n f + sum_below n g.
Proof. induction n as [| n IH]; simpl; [done |]. rewrite IH. lia. Qed.

Lemma sum_below_ones (dirs : list string) :
  sum_below (length dirs)
    (fun j => match dirs !! j with Some _ => 1 | None => 0 end) = length dirs.
Proof.
  assert (forall n, n <= length dirs ->
            sum_below n (fun j => match dirs !! j with Some _ => 1 | None => 0 end) = n)
    as Hn; [| by apply Hn].
  induction n as [| n IH]; intros Hle; [done |].
  simpl. rewrite IH by lia.
  destruct (dirs !! n) eqn:Hd; [lia |].
  apply lookup_ge_None in Hd. lia.
Qed.

(** *** The claims about the fan-out *)

(** C1: in every state that the program can reach, for every capacity of
    the channel and every list of directories, the tasks between their send
    on the channel and their receive from it are as many as the values in
    the channel, and no more than its capacity; the tasks with a child
    process are among them. *)
Theorem slots_never_exceed_ceiling (dirs : list string) (tr : list label) (s : state) :
  exec (init dirs) tr s ->
  holders s <= capacity /\
  worker s = holders s /\
  count (fun t => has_process (t_pc t)) (tasks s) <= holders s.
Proof.
  intros Hexec.
  destruct (invariant_exec _ _ _ (invariant_init dirs) Hexec) as (Hw & Hcap & _).
  split; [lia |]. split; [done |].
  apply count_le. intros t. by destruct (t_pc t).
Qed.

(** C2, as the code has it: with a capacity of at least one, every run is
    finite and can always go on to the return of [main]; at the return each
    directory has had its start banner, and each task has written its last
    line, which is the completion banner when its process started, whether
    or not it failed afterwards, and the start-failure line when it did
    not.  So there are as many completion banners as processes started. *)
Theorem completion_banner_per_started_task (dirs : list string) :
  1 <= capacity ->
  (forall tr s, exec (init dirs) tr s ->
     length tr <= steps_left (init dirs) /\
     exists tr' s', exec s tr' s' /\ main_pc s' = MReturned) /\
  (forall tr s, exec (init dirs) tr s -> main_pc s = MReturned ->
     count is_start_banner (printed tr) = length dirs /\
     count is_done_banner (printed tr) = started_count cmds os dirs /\
     count is_done_banner (printed tr) + count is_start_failed (printed tr) = length dirs /\
     forall j dir, dirs !! j = Some dir ->
       printed (of_task j tr) = task_output cmds os j dir).
Proof.
  intros Hcap. split.
  - intros tr s Hexec. split.
    + rewrite (exec_steps_left _ _ _ Hexec). lia.
    + apply can_finish; [done |].
      by apply (invariant_exec _ _ _ (invariant_init dirs) Hexec).
  - intros tr s Hexec Hret.
    assert (forall p l, owner l = Main -> prints p l = false) as Hmain.
    { intros p l Hl. by destruct l. }
    rewrite !count_printed.
    rewrite !(complete_count _ dirs tr s) by auto.
    split; [| split; [| split]].
    + rewrite <- (sum_below_ones dirs) at 2. apply sum_below_ext. intros j _.
      destruct (dirs !! j) as [dir |]; [| done]. apply task_trace_counts.
    + apply sum_below_ext. intros j _.
      destruct (dirs !! j) as [dir |]; [| done]. apply task_trace_counts.
    + rewrite <- sum_below_add. rewrite <- (sum_below_ones dirs) at 2.
      apply sum_below_ext. intros j _.
      destruct (dirs !! j) as [dir |]; [| done].
      destruct (task_trace_counts j dir) as (_ & -> & -> & _).
      by destruct (starts _).
    + intros j dir Hj.
      rewrite (complete_projection dirs tr s Hexec Hret j), Hj.
      apply printed_task_trace.
Qed.

(** C3: a task that is over has sent on the channel once, at its start,
    and received from it once, right before its [wg.Done()], whatever its
    process did; and with a capacity of at least one every run can go on to
    the return of [main], where every directory has a task that is over
    and the channel is empty. *)
Theorem slot_released_exactly_once (dirs : list string) (tr : list label) (s : state) :
  1 <= capacity ->
  exec (init dirs) tr s ->
  (forall i t, tasks s !! i = Some t -> t_pc t = PDone ->
     exists body,
       of_task i tr = LSend i :: body ++ [LRecv i; LWgDone i] /\
       count is_recv body = 0 /\ count is_send body = 0) /\
  (exists tr' s',
     exec s tr' s' /\ main_pc s' = MReturned /\
     length (tasks s') = length dirs /\
     Forall (fun t => t_pc t = PDone) (tasks s') /\
     worker s' = 0).
Proof.
  intros Hcap Hexec. split.
  - intros i t Hi Hpc.
    destruct (done_projection dirs tr s i t Hexec Hi Hpc) as (dir & _ & ->).
    apply task_trace_shape.
  - pose proof (invariant_exec _ _ _ (invariant_init dirs) Hexec) as Hinv.
    destruct (can_finish s Hcap Hinv) as (tr' & s' & Hexec' & Hret).
    exists tr', s'. split; [done |]. split; [done |].
    pose proof (invariant_exec _ _ _ Hinv Hexec') as Hinv'.
    destruct (returned_all_done s' Hinv' Hret) as (Hall & Hw & _).
    split; [| by split].
    pose proof (total_exec _ _ _ (exec_app _ _ _ _ _ Hexec Hexec')) as Htotal.
    unfold total in Htotal. rewrite Hret in Htotal. simpl in Htotal. lia.
Qed.

Lemma append_inv_head (p a b : string) : p +:+ a = p +:+ b -> a = b.
Proof. induction p as [| c p IH]; simpl; [done |]. intros [= H]. by apply IH. Qed.

(** The line of a run-time error is not the line of a start failure, for
    the same directory. *)
Lemma run_error_not_start_failure (dir err err' : string) :
  render (RunError dir err) <> render (StartFailed dir err').
Proof.
  unfold render. intros Heq.
  apply (append_inv_head "[") in Heq.
  apply (append_inv_head dir) in Heq.
  simpl in Heq. discriminate.
Qed.

(** C6: whatever the processes do, with a capacity of at least one the run
    can always go on to the return of [main], which is exit status 0; and
    at the return every task has done all it does alone, the failures of
    the other tasks notwithstanding: a task whose process failed at run
    time has written its output lines, the run-time error line, which is
    not the start-failure line, and the completion banner. *)
Theorem failures_contained (dirs : list string) (tr : list label) (s : state) :
  1 <= capacity ->
  exec (init dirs) tr s ->
  (exists tr' s', exec s tr' s' /\ exit_status s' = Some 0%Z) /\
  (main_pc s = MReturned ->
     exit_status s = Some 0%Z /\
     forall j dir, dirs !! j = Some dir ->
       of_task j tr = task_trace j dir /\
       forall lines err, os j (command cmds dir) = Ran lines (Some err) ->
         printed (of_task j tr) =
           StartBanner dir :: map (OutputLine dir) lines ++ [RunError dir err; DoneBanner dir]) /\
  (forall dir err err', render (RunError dir err) <> render (StartFailed dir err')).
Proof.
  intros Hcap Hexec. split; [| split].
  - pose proof (invariant_exec _ _ _ (invariant_init dirs) Hexec) as Hinv.
    destruct (can_finish s Hcap Hinv) as (tr' & s' & Hexec' & Hret).
    exists tr', s'. split; [done |]. unfold exit_status. by rewrite Hret.
  - intros Hret. split; [unfold exit_status; by rewrite Hret |].
    intros j dir Hj.
    pose proof (complete_projection dirs tr s Hexec Hret j) as Hproj.
    rewrite Hj in Hproj. split; [done |].
    intros lines err Hos. rewrite Hproj, printed_task_trace.
    unfold task_output. by rewrite Hos.
  - apply run_error_not_start_failure.
Qed.

Lemma to_bytes_app (a b : string) :
  Strings.to_bytes (a +:+ b) = Strings.to_bytes a ++ Strings.to_bytes b.
Proof. induction a as [| c a IH]; simpl; [done |]. by rewrite <- IH. Qed.

Lemma split_bytes_piece (sep : ascii) (a cur r : list ascii) :
  Forall (fun b => Strings.byte_eqb b sep = false) a ->
  Strings.split_bytes sep cur (a ++ sep :: r) =
    (reverse cur ++ a) :: Strings.split_bytes sep [] r.
Proof.
  intros Ha. revert cur. induction Ha as [| c a Hc _ IH]; intros cur; simpl.
  - unfold Strings.byte_eqb. by rewrite Ascii.eqb_refl, app_nil_r.
  - rewrite Hc, IH, reverse_cons, <- app_assoc. done.
Qed.

Lemma split_bytes_last (sep : ascii) (a cur : list ascii) :
  Forall (fun b => Strings.byte_eqb b sep = false) a ->
  Strings.split_bytes sep cur a = [reverse cur ++ a].
Proof.
  intros Ha. revert cur. induction Ha as [| c a Hc _ IH]; intros cur; simpl.
  - by rewrite app_nil_r.
  - rewrite Hc, IH, reverse_cons, <- app_assoc. done.
Qed.

(** The script of a task, cut at its line feeds, is the commands of the
    group in their order, one to a line. *)
Lemma script_lines (stmts : list string) :
  stmts <> [] ->
  Forall (Strings.free_of (ascii_of_nat 10)) stmts ->
  Strings.Split (Strings.Join stmts LF) (ascii_of_nat 10) = stmts.
Proof.
  intros Hne Hfree. unfold Strings.Split.
  induction Hfree as [| e rest He Hrest IH]; [done |].
  destruct rest as [| e2 rest].
  - simpl. rewrite (split_bytes_last _ _ [] He). simpl.
    unfold Strings.of_bytes, Strings.to_bytes. by rewrite string_of_list_ascii_of_string.
  - change (Strings.Join (e :: e2 :: rest) LF)
      with (e +:+ LF +:+ Strings.Join (e2 :: rest) LF).
    rewrite !to_bytes_app. change (Strings.to_bytes LF) with [ascii_of_nat 10].
    cbn [app]. rewrite (split_bytes_piece _ _ [] _ He). cbn [map].
    f_equal; [| by apply IH].
    unfold Strings.of_bytes, Strings.to_bytes. apply string_of_list_ascii_of_string.
Qed.

(** C8: in a run that reached the return of [main], every task started
    exactly one process: the shell [sh] with the option [-c] and, as one
    argument, the commands of the group joined by line feeds, in the
    directory of the task. *)
Theorem one_shell_per_task (dirs : list string) (tr : list label) (s : state) :
  exec (init dirs) tr s -> main_pc s = MReturned ->
  forall j dir, dirs !! j = Some dir ->
    List.filter is_start (of_task j tr) =
      [LStart j (mkCmd "sh" ["-c"; Strings.Join cmds LF] dir)].
Proof.
  intros Hexec Hret j dir Hj.
  rewrite (complete_projection dirs tr s Hexec Hret j), Hj.
  unfold Engine.task_trace, started_rest, scan_rest, closing. simpl.
  f_equal.
  destruct (os j (command cmds dir)) as [err | lines werr]; [done |].
  rewrite List.filter_app.
  assert (List.filter is_start (map (fun l => LPrint j (OutputLine dir l)) lines) = []) as ->.
  { induction lines as [| line lines IH]; [done |]. simpl. exact IH. }
  by destruct werr.
Qed.

End EngineFacts.

(** ** The fan-out on sample runs *)

Section EngineSamples.
Import Engine.

Lemma slots_never_exceed_ceiling_witness :
  exists tr s,
    run 2 sample_cmds sample_os (init sample_dirs) sample_prefix = Some (tr, s) /\
    step 2 sample_cmds sample_os s (Task 2) = None /\
    holders s = 2 /\
    (holders s <= 2 /\ worker s = holders s /\
     count (fun t => has_process (t_pc t)) (tasks s) <= holders s).
Proof.
  eexists _, _. split; [vm_compute; reflexivity |].
  split; [reflexivity |]. split; [reflexivity |].
  eapply (slots_never_exceed_ceiling 2 sample_cmds sample_os sample_dirs).
  apply (run_exec _ _ _ _ _ sample_prefix). vm_compute. reflexivity.
Defined.

Lemma sample_run :
  exec 2 sample_cmds sample_os (init sample_dirs) sample_trace sample_final /\
  main_pc sample_final = MReturned.
Proof.
  split; [| reflexivity].
  apply (run_exec _ _ _ _ _ sample_schedule). vm_compute. reflexivity.
Qed.

Example sample_stdout :
  stdout sample_trace =
    ">>> 开始在目录 [/a] 执行命令..." +:+ LF +:+
    "[/a] 启动失败: chdir /a: no such file or directory" +:+ LF +:+
    ">>> 开始在目录 [/c] 执行命令..." +:+ LF +:+
    ">>> 开始在目录 [/b] 执行命令..." +:+ LF +:+
    "[/b] a" +:+ LF +:+
    "[/b] 执行错误: exit status 1" +:+ LF +:+
    "<<< 完成目录 [/b] 的命令执行" +:+ LF +:+ LF +:+
    "[/c] a" +:+ LF +:+
    "<<< 完成目录 [/c] 的命令执行" +:+ LF +:+ LF.
Proof. vm_compute. reflexivity. Qed.

Lemma missing_run :
  exec 1 ["make"] missing_os (init ["/missing"]) missing_trace missing_final /\
  main_pc missing_final = MReturned.
Proof.
  split; [| reflexivity].
  apply (run_exec _ _ _ _ _ missing_schedule). vm_compute. reflexivity.
Qed.

(** C2 as the specification has it fails: the one directory of this run
    does not exist, [c.Start()] fails, the task writes the start-failure
    line and returns at line 109; no run of it has a completion banner,
    and there is a run to the return of [main]. *)
Lemma completion_banner_missing_after_start_failure :
  (forall tr s,
     exec 1 ["make"] missing_os (init ["/missing"]) tr s -> main_pc s = MReturned ->
     count is_done_banner (printed tr) = 0 /\
     count is_done_banner (printed tr) <> length ["/missing"]) /\
  exec 1 ["make"] missing_os (init ["/missing"]) missing_trace missing_final /\
  main_pc missing_final = MReturned /\
  printed missing_trace =
    [StartBanner "/missing";
     StartFailed "/missing" "chdir /missing: no such file or directory"].
Proof.
  split; [| split; [apply missing_run | split; reflexivity]].
  intros tr s Hexec Hret.
  assert (count is_done_banner (printed tr) = 0) as ->; [| by split].
  rewrite count_printed.
  rewrite (complete_count 1 ["make"] missing_os _ ["/missing"] tr s); [done | | done | done].
  intros l Hl. by destruct l.
Qed.

Lemma completion_banner_per_started_task_witness :
  (1 <= 2) /\
  exec 2 sample_cmds sample_os (init sample_dirs) sample_trace sample_final /\
  main_pc sample_final = MReturned /\
  count is_start_banner (printed sample_trace) = 3 /\
  count is_done_banner (printed sample_trace) = 2 /\
  count is_done_banner (printed sample_trace) + count is_start_failed (printed sample_trace) = 3 /\
  printed (of_task 0 sample_trace) =
    [StartBanner "/a"; StartFailed "/a" "chdir /a: no such file or directory"] /\
  printed (of_task 1 sample_trace) =
    [StartBanner "/b"; OutputLine "/b" "a"; RunError "/b" "exit status 1"; DoneBanner "/b"] /\
  (length sample_trace <= 30 /\
   exists tr' s', exec 2 sample_cmds sample_os sample_final tr' s' /\ main_pc s' = MReturned).
Proof.
  assert (1 <= 2) as Hcap by lia.
  destruct sample_run as [Hexec Hret].
  destruct (completion_banner_per_started_task 2 sample_cmds sample_os sample_dirs Hcap)
    as [Hends Hcounts].
  destruct (Hcounts sample_trace sample_final Hexec Hret) as (H1 & H2 & H3 & H4).
  split; [exact Hcap |]. split; [exact Hexec |]. split; [exact Hret |].
  split; [exact H1 |]. split; [exact H2 |]. split; [exact H3 |].
  split; [exact (H4 0 "/a" eq_refl) |]. split; [exact (H4 1 "/b" eq_refl) |].
  exact (Hends sample_trace sample_final Hexec).
Defined.

Lemma slot_released_exactly_once_witness :
  (1 <= 2) /\
  exec 2 sample_cmds sample_os (init sample_dirs) sample_trace sample_final /\
  of_task 0 sample_trace =
    [LSend 0; LPrint 0 (StartBanner "/a"); LStart 0 (command sample_cmds "/a");
     LPrint 0 (StartFailed "/a" "chdir /a: no such file or directory");
     LRecv 0; LWgDone 0] /\
  (exists body,
     of_task 0 sample_trace = LSend 0 :: body ++ [LRecv 0; LWgDone 0] /\
     count is_recv body = 0 /\ count is_send body = 0) /\
  (exists body,
     of_task 1 sample_trace = LSend 1 :: body ++ [LRecv 1; LWgDone 1] /\
     count is_recv body = 0 /\ count is_send body = 0) /\
  (exists tr' s',
     exec 2 sample_cmds sample_os sample_final tr' s' /\ main_pc s' = MReturned /\
     length (tasks s') = 3 /\
     Forall (fun t => t_pc t = PDone) (tasks s') /\
     worker s' = 0).
Proof.
  assert (1 <= 2) as Hcap by lia.
  destruct sample_run as [Hexec Hret].
  destruct (slot_released_exactly_once 2 sample_cmds sample_os sample_dirs
              sample_trace sample_final Hcap Hexec) as [Hdone Hend].
  split; [exact Hcap |]. split; [exact Hexec |]. split; [reflexivity |].
  split; [exact (Hdone 0 (mkTask "/a" PDone) eq_refl eq_refl) |].
  split; [exact (Hdone 1 (mkTask "/b" PDone) eq_refl eq_refl) |].
  exact Hend.
Defined.

Lemma failures_contained_witness :
  (1 <= 2) /\
  exec 2 sample_cmds sample_os (init sample_dirs) sample_trace sample_final /\
  exit_status sample_final = Some 0%Z /\
  of_task 2 sample_trace = task_trace sample_cmds sample_os 2 "/c" /\
  printed (of_task 1 sample_trace) =
    StartBanner "/b" :: map (OutputLine "/b") ["a"] ++
    [RunError "/b" "exit status 1"; DoneBanner "/b"] /\
  render (RunError "/b" "exit status 1") <> render (StartFailed "/b" "exit status 1").
Proof.
  assert (1 <= 2) as Hcap by lia.
  destruct sample_run as [Hexec Hret].
  destruct (failures_contained 2 sample_cmds sample_os sample_dirs
              sample_trace sample_final Hcap Hexec) as (_ & Hreturned & Hlines).
  destruct (Hreturned Hret) as [Hexit Htasks].
  split; [exact Hcap |]. split; [exact Hexec |]. split; [exact Hexit |].
  split; [exact (proj1 (Htasks 2 "/c" eq_refl)) |].
  split; [exact (proj2 (Htasks 1 "/b" eq_refl) ["a"] "exit status 1" eq_refl) |].
  apply Hlines.
Defined.

Lemma one_shell_per_task_witness :
  exec 2 sample_cmds sample_os (init sample_dirs) sample_trace sample_final /\
  main_pc sample_final = MReturned /\
  List.filter is_start (of_task 2 sample_trace) =
    [LStart 2 (mkCmd "sh" ["-c"; "echo a" +:+ LF +:+ "test -f Makefile"] "/c")].
Proof.
  destruct sample_run as [Hexec Hret].
  split; [exact Hexec |]. split; [exact Hret |].
  exact (one_shell_per_task 2 sample_cmds sample_os sample_dirs
           sample_trace sample_final Hexec Hret 2 "/c" eq_refl).
Defined.

End EngineSamples.

(** ** From [main] to the end of the run *)


(** * Further properties of the code *)

(** ** [parseConfig]: what the loop keeps and what it drops *)

Lemma parse_lines_cons (st : Config * string) (text : string) (lines : list string) :
  parse_lines st (text :: lines) = parse_lines (parse_line st text) lines.
Proof. reflexivity. Qed.

Lemma parse_lines_app (st : Config * string) (l1 l2 : list string) :
  parse_lines st (l1 ++ l2) = parse_lines (parse_lines st l1) l2.
Proof. unfold parse_lines. apply foldl_app. Qed.

(** A property of configurations that every step of the loop keeps holds
    of what the loop returns. *)
Lemma parse_lines_invariant (P : Config * string -> Prop) (lines : list string) :
  (forall st text, P st -> P (parse_line st text)) ->
  forall st, P st -> P (parse_lines st lines).
Proof.
  intros Hstep. induction lines as [| text lines IH]; intros st Hst; [done |].
  rewrite parse_lines_cons. apply IH. by apply Hstep.
Qed.

Lemma parse_line_cases (cfg : Config) (cur text : string) :
  (exists g, header_of text = Some g /\
     parse_line (cfg, cur) text =
       (if negb (String.eqb g "settings")
        then mkConfig (Settings cfg) (<[g := []]> (Groups cfg)) else cfg, g)) \/
  (header_of text = None /\ command_of text = None /\
     parse_line (cfg, cur) text = (cfg, cur)) \/
  (exists line, header_of text = None /\ command_of text = Some line /\
     parse_line (cfg, cur) text =
       if String.eqb cur "settings" then
         match Strings.SplitN2 line equals_sign with
         | [k; v] =>
           (mkConfig (<[Strings.TrimSpace k := Strings.TrimSpace v]> (Settings cfg))
                     (Groups cfg), cur)
         | _ => (cfg, cur)
         end
       else if negb (String.eqb cur "") then
         (mkConfig (Settings cfg)
            (<[cur := default [] (Groups cfg !! cur) ++ [line]]> (Groups cfg)), cur)
       else (cfg, cur)).
Proof.
  destruct (header_of text) as [g |] eqn:Hh.
  - left. exists g. split; [done |]. by apply parse_line_header.
  - destruct (command_of text) as [line |] eqn:Hc.
    + right. right. exists line. split; [done |]. split; [done |].
      by apply parse_line_command.
    + right. left. split; [done |]. split; [done |]. by apply parse_line_skip.
Qed.

(** X1: in every parsed configuration [settings] is no group, and the group
    of the empty name, which the header [[]] makes, has no commands. *)
Theorem parseConfig_reserved_names (content : string) :
  Groups (parseConfig content) !! "settings" = None /\
  forall cmds, Groups (parseConfig content) !! "" = Some cmds -> cmds = [].
Proof.
  pose (P := fun st : Config * string =>
    Groups st.1 !! "settings" = None /\
    forall cmds, Groups st.1 !! "" = Some cmds -> cmds = []).
  assert (P (parse_lines (empty_config, "") (Bufio.scan_lines content))) as HP;
    [| exact HP].
  apply parse_lines_invariant; [| by split].
  unfold P. intros [cfg cur] text [Hs He]. simpl in Hs, He.
  destruct (parse_line_cases cfg cur text)
    as [(g & _ & ->) | [(_ & _ & ->) | (line & _ & _ & ->)]]; [| by split |].
  - destruct (String.eqb_spec g "settings") as [-> | Hg]; simpl; [by split |].
    split; [by rewrite lookup_insert_ne |].
    intros cmds. destruct (decide (g = "")) as [-> | Hne].
    + rewrite lookup_insert_eq. by intros [= <-].
    + rewrite lookup_insert_ne by done. apply He.
  - destruct (String.eqb_spec cur "settings") as [-> | Hc].
    { destruct (Strings.SplitN2 line equals_sign) as [| k [| v [| ? ?]]]; by split. }
    destruct (String.eqb_spec cur "") as [-> | Hne]; simpl; [by split |].
    split; [by rewrite lookup_insert_ne |].
    intros cmds. rewrite lookup_insert_ne by done. apply He.
Qed.

Lemma parseConfig_reserved_names_witness :
  let content := "[]" +:+ LF +:+ "make" +:+ LF +:+ "[settings]" +:+ LF +:+ "a = 1" +:+ LF +:+
                 "[[settings]]" +:+ LF +:+ "b = 2" in
  Groups (parseConfig content) !! "" = Some [] /\
  Settings (parseConfig content) = {[ "a" := "1"; "b" := "2" ]} /\
  Groups (parseConfig content) !! "settings" = None.
Proof.
  intros content.
  destruct (parseConfig_reserved_names content) as [Hs He].
  split; [reflexivity |]. split; [vm_compute; reflexivity | exact Hs].
Defined.

Lemma command_of_is_command (text line : string) :
  command_of text = Some line -> is_command line.
Proof.
  unfold command_of, is_command. cbv zeta.
  destruct (String.eqb_spec (Strings.TrimSpace text) "") as [| Hne]; [done |].
  destruct (Strings.HasPrefix (Strings.TrimSpace text) "#") eqn:Hc; [done |].
  simpl.
  destruct (_ && _) eqn:Hb; [done |].
  intros [= <-]. by repeat split.
Qed.

(** X2: every line that [parseConfig] stores in a group is a content line:
    it is not empty, it is no comment, and it is no header. *)
Theorem parseConfig_commands_are_content (content g : string) (cmds : list string) :
  Groups (parseConfig content) !! g = Some cmds ->
  Forall is_command cmds.
Proof.
  pose (P := fun st : Config * string =>
    forall g cmds, Groups st.1 !! g = Some cmds -> Forall is_command cmds).
  assert (P (parse_lines (empty_config, "") (Bufio.scan_lines content))) as HP;
    [| apply HP].
  apply parse_lines_invariant;
    [| intros g0 cmds0; simpl; by rewrite lookup_empty].
  unfold P. intros [cfg cur] text Hcfg. simpl in Hcfg.
  destruct (parse_line_cases cfg cur text)
    as [(h & _ & ->) | [(_ & _ & ->) | (line & _ & Hline & ->)]]; [| done |].
  - destruct (negb (String.eqb h "settings")); [| done].
    intros g0 cmds0. simpl. destruct (decide (h = g0)) as [<- | Hne].
    + rewrite lookup_insert_eq. by intros [= <-].
    + rewrite lookup_insert_ne by done. apply Hcfg.
  - destruct (String.eqb cur "settings").
    { destruct (Strings.SplitN2 line equals_sign) as [| k [| v [| ? ?]]]; done. }
    destruct (negb (String.eqb cur "")); [| done].
    intros g0 cmds0. simpl. destruct (decide (cur = g0)) as [<- | Hne].
    + rewrite lookup_insert_eq. intros [= <-].
      apply Forall_app. split.
      * destruct (Groups cfg !! cur) as [old |] eqn:Hold; [by apply (Hcfg cur) | done].
      * apply Forall_singleton. by apply (command_of_is_command text).
    + rewrite lookup_insert_ne by done. apply Hcfg.
Qed.

Lemma parseConfig_commands_are_content_witness :
  Groups (parseConfig ("[build]" +:+ LF +:+ "# compile" +:+ LF +:+ "  make  ")) !! "build" =
    Some ["make"] /\
  Forall is_command ["make"].
Proof.
  split; [reflexivity |].
  apply (parseConfig_commands_are_content
           ("[build]" +:+ LF +:+ "# compile" +:+ LF +:+ "  make  ") "build").
  reflexivity.
Defined.

Lemma parse_lines_no_section (lines : list string) (cfg : Config) :
  Forall (fun text => header_of text = None) lines ->
  parse_lines (cfg, "") lines = (cfg, "").
Proof.
  induction 1 as [| text lines Hh _ IH]; [done |].
  rewrite parse_lines_cons.
  destruct (parse_line_cases cfg "" text)
    as [(g & Hg & _) | [(_ & _ & ->) | (line & _ & _ & ->)]]; [congruence | done | done].
Qed.

(** X3: content lines that come before the first header belong to no
    section and are dropped: the configuration is that of the text from
    its first header on. *)
Theorem parseConfig_before_first_header (content : string) (pre rest : list string) :
  Bufio.scan_lines content = pre ++ rest ->
  Forall (fun text => header_of text = None) pre ->
  parseConfig content = (parse_lines (empty_config, "") rest).1.
Proof.
  intros Hscan Hpre. unfold parseConfig.
  by rewrite Hscan, parse_lines_app, (parse_lines_no_section pre).
Qed.

Lemma parseConfig_before_first_header_witness :
  let content := "make" +:+ LF +:+ "key = value" +:+ LF +:+ "[build]" +:+ LF +:+ "go build" in
  Bufio.scan_lines content = ["make"; "key = value"] ++ ["[build]"; "go build"] /\
  parseConfig content = (parse_lines (empty_config, "") ["[build]"; "go build"]).1 /\
  Groups (parseConfig content) = {[ "build" := ["go build"] ]} /\
  Settings (parseConfig content) = ∅.
Proof.
  intros content. split; [reflexivity |]. split; [| split; vm_compute; reflexivity].
  apply (parseConfig_before_first_header content ["make"; "key = value"]).
  - reflexivity.
  - repeat constructor.
Defined.

(** X4: blank lines and comment lines have no effect, wherever they stand:
    the loop gives the same configuration and the same current section
    when they are taken out. *)
Theorem parse_lines_skips_blank_and_comment (st : Config * string) (lines : list string) :
  parse_lines st lines = parse_lines st (List.filter significant lines).
Proof.
  revert st. induction lines as [| text lines IH]; intros st; [done |].
  cbn [List.filter]. unfold significant at 1.
  destruct (header_of text) as [g |] eqn:Hh.
  { rewrite !parse_lines_cons. apply IH. }
  destruct (command_of text) as [line |] eqn:Hc.
  { rewrite !parse_lines_cons. apply IH. }
  rewrite parse_lines_cons, (parse_line_skip st text Hh Hc). apply IH.
Qed.

(** X5: the loop never takes a group or a setting away: a name that the
    configuration has after some lines is still there after more lines
    (a repeated header empties a group but keeps it). *)
Theorem parse_lines_keeps_names (st : Config * string) (lines : list string) :
  dom (Groups st.1) ⊆ dom (Groups (parse_lines st lines).1) /\
  dom (Settings st.1) ⊆ dom (Settings (parse_lines st lines).1).
Proof.
  revert st. induction lines as [| text lines Hrest]; intros st; [done |].
  rewrite parse_lines_cons.
  destruct (Hrest (parse_line st text)) as [IHg IHs]. clear Hrest.
  assert (dom (Groups st.1) ⊆ dom (Groups (parse_line st text).1) /\
          dom (Settings st.1) ⊆ dom (Settings (parse_line st text).1)) as [Hg Hs].
  { destruct st as [cfg cur]. cbn [fst].
    destruct (parse_line_cases cfg cur text)
      as [(g & _ & ->) | [(_ & _ & ->) | (line & _ & _ & ->)]]; [| done |].
    - destruct (negb (String.eqb g "settings")); simpl; [| done].
      split; [| done]. rewrite dom_insert. set_solver.
    - destruct (String.eqb cur "settings").
      + destruct (Strings.SplitN2 line equals_sign) as [| k [| v [| ? ?]]]; simpl; try done.
        split; [done |]. rewrite dom_insert. set_solver.
      + destruct (negb (String.eqb cur "")); simpl; [| done].
        split; [| done]. rewrite dom_insert. set_solver. }
  split; set_solver.
Qed.

Lemma parse_lines_outside_settings (lines : list string) :
  Forall (fun text => header_of text <> Some "settings") lines ->
  forall cfg cur, cur <> "settings" ->
  Settings (parse_lines (cfg, cur) lines).1 = Settings cfg /\
  (parse_lines (cfg, cur) lines).2 <> "settings".
Proof.
  induction 1 as [| text lines Hh _ IH]; intros cfg cur Hcur; [done |].
  rewrite parse_lines_cons.
  destruct (parse_line_cases cfg cur text)
    as [(g & Hg & ->) | [(_ & _ & ->) | (line & _ & _ & ->)]].
  - assert (g <> "settings") as Hne by congruence.
    destruct (String.eqb_spec g "settings") as [| _]; [done |]. simpl.
    by destruct (IH (mkConfig (Settings cfg) (<[g := []]> (Groups cfg))) g Hne) as [-> ?].
  - by apply IH.
  - destruct (String.eqb_spec cur "settings") as [| _]; [done |].
    destruct (negb (String.eqb cur "")); [| by apply IH].
    by destruct (IH (mkConfig (Settings cfg)
                       (<[cur := default [] (Groups cfg !! cur) ++ [line]]> (Groups cfg)))
                    cur Hcur) as [-> ?].
Qed.

(** X6: a text without a [[settings]] header has no settings, whatever its
    lines look like; so its concurrency ceiling is the default 3. *)
Theorem parseConfig_no_settings_section (content : string) :
  Forall (fun text => header_of text <> Some "settings") (Bufio.scan_lines content) ->
  Settings (parseConfig content) = ∅ /\
  concurrency_of (parseConfig content) = 3%Z.
Proof.
  intros Hall.
  assert (Settings (parseConfig content) = ∅) as Hs.
  { unfold parseConfig.
    by destruct (parse_lines_outside_settings _ Hall empty_config "") as [-> _]. }
  split; [done |]. unfold concurrency_of. by rewrite Hs, lookup_empty.
Qed.

Lemma parseConfig_no_settings_section_witness :
  let content := "concurrency = 9" +:+ LF +:+ "[build]" +:+ LF +:+ "concurrency = 9" in
  Groups (parseConfig content) !! "build" = Some ["concurrency = 9"] /\
  Settings (parseConfig content) = ∅ /\
  concurrency_of (parseConfig content) = 3%Z.
Proof.
  intros content. split; [reflexivity |].
  apply (parseConfig_no_settings_section content).
  repeat constructor; vm_compute; discriminate.
Defined.

Lemma parse_lines_in_settings (lines : list string) :
  Forall (fun text => header_of text = None) lines ->
  forall cfg,
  parse_lines (cfg, "settings") lines =
    (mkConfig (assign_all (omap setting_of lines) (Settings cfg)) (Groups cfg), "settings").
Proof.
  induction 1 as [| text lines Hh _ IH]; intros cfg; [by destruct cfg |].
  rewrite parse_lines_cons. cbn [omap list_omap]. unfold setting_of at 1.
  destruct (parse_line_cases cfg "settings" text)
    as [(g & Hg & _) | [(_ & Hc & ->) | (line & _ & Hc & ->)]]; [congruence | |].
  - rewrite Hc. apply IH.
  - rewrite Hc. simpl.
    destruct (Strings.SplitN2 line equals_sign) as [| k [| v [| ? ?]]];
      by rewrite IH.
Qed.

(** X7: in the [[settings]] section every content line with an equals sign
    assigns the trimmed text before the first sign to the trimmed text
    after it, a later line overriding an earlier one for the same key;
    lines without the sign do nothing, and no group changes. *)
Theorem parseConfig_settings_section (content : string) (pre post : list string) (h : string) :
  Bufio.scan_lines content = pre ++ h :: post ->
  header_of h = Some "settings" ->
  Forall (fun text => header_of text = None) post ->
  let before := (parse_lines (empty_config, "") pre).1 in
  Settings (parseConfig content) = assign_all (omap setting_of post) (Settings before) /\
  Groups (parseConfig content) = Groups before.
Proof.
  intros Hscan Hh Hpost before. unfold parseConfig.
  rewrite Hscan, parse_lines_app, parse_lines_cons.
  subst before. destruct (parse_lines (empty_config, "") pre) as [cfg cur].
  rewrite (parse_line_header _ _ _ _ Hh). simpl.
  by rewrite (parse_lines_in_settings post Hpost).
Qed.

Lemma parseConfig_settings_section_witness :
  let content := "[build]" +:+ LF +:+ "make" +:+ LF +:+ "[settings]" +:+ LF +:+
                 "concurrency = 2" +:+ LF +:+ "verbose" +:+ LF +:+
                 " concurrency=5 " +:+ LF +:+ "path = a=b" in
  Settings (parseConfig content) = {[ "concurrency" := "5"; "path" := "a=b" ]} /\
  Groups (parseConfig content) = {[ "build" := ["make"] ]}.
Proof.
  intros content.
  destruct (parseConfig_settings_section content ["[build]"; "make"]
              ["concurrency = 2"; "verbose"; " concurrency=5 "; "path = a=b"] "[settings]")
    as [Hs Hg].
  - reflexivity.
  - reflexivity.
  - repeat constructor.
  - split; [rewrite Hs | rewrite Hg]; vm_compute; reflexivity.
Defined.

(** ** From the configuration text to the script of a task *)

Lemma strip_space_front_drop (l r : list ascii) :
  Strings.strip_space_front l = Some r -> exists k, r = drop k l.
Proof.
  unfold Strings.strip_space_front.
  destruct l as [| c [| c2 [| c3 l]]]; simpl; repeat case_match; intros [= <-];
    first [by exists 1 | by exists 2 | by exists 3].
Qed.

Lemma strip_space_back_drop (l r : list ascii) :
  Strings.strip_space_back l = Some r -> exists k, r = drop k l.
Proof.
  unfold Strings.strip_space_back.
  destruct l as [| c [| c2 [| c3 l]]]; simpl; repeat case_match; intros [= <-];
    first [by exists 1 | by exists 2 | by exists 3].
Qed.

Lemma strip_while_Forall (P : ascii -> Prop) (strip : list ascii -> option (list ascii))
    (fuel : nat) (l : list ascii) :
  (forall l r, strip l = Some r -> exists k, r = drop k l) ->
  Forall P l -> Forall P (Strings.strip_while strip fuel l).
Proof.
  intros Hstrip. revert l. induction fuel as [| fuel IH]; intros l Hl; [done |].
  simpl. destruct (strip l) as [r |] eqn:Hr; [| done].
  apply IH. destruct (Hstrip l r Hr) as [k ->]. by apply Forall_drop.
Qed.

(** [strings.TrimSpace] only takes bytes away. *)
Lemma trim_space_Forall (P : ascii -> Prop) (l : list ascii) :
  Forall P l -> Forall P (Strings.trim_space l).
Proof.
  intros Hl. unfold Strings.trim_space. cbv zeta.
  apply Forall_reverse.
  apply strip_while_Forall; [apply strip_space_back_drop |].
  apply Forall_reverse.
  by apply strip_while_Forall; [apply strip_space_front_drop |].
Qed.

Lemma raw_lines_free (l cur : list ascii) :
  Forall (fun b => Strings.byte_eqb b Bufio.newline = false) cur ->
  Forall (Forall (fun b => Strings.byte_eqb b Bufio.newline = false)) (Bufio.raw_lines cur l).
Proof.
  revert cur. induction l as [| c l IH]; intros cur Hcur; simpl.
  - destruct cur; [done |]. apply Forall_singleton. by apply Forall_reverse.
  - destruct (Strings.byte_eqb c Bufio.newline) eqn:Hc.
    + constructor; [by apply Forall_reverse | by apply IH].
    + apply IH. by constructor.
Qed.

Lemma fitting_Forall (P : list ascii -> Prop) (ls : list (list ascii)) :
  Forall P ls -> Forall P (Bufio.fitting ls).
Proof.
  induction 1 as [| l ls Hl _ IH]; [done |].
  cbn [Bufio.fitting]. destruct (_ <? _)%N; [by constructor | done].
Qed.

Lemma dropCR_Forall (P : ascii -> Prop) (l : list ascii) :
  Forall P l -> Forall P (Bufio.dropCR l).
Proof.
  intros Hl. unfold Bufio.dropCR.
  destruct (reverse l) as [| c r] eqn:Hrev; [done |].
  destruct (Strings.byte_eqb c Bufio.carriage_return); [| done].
  apply Forall_reverse.
  apply Forall_reverse in Hl. rewrite Hrev in Hl. by inversion Hl.
Qed.

(** No scanned line has a line feed in it. *)
Lemma scan_lines_free (content : string) :
  Forall (Strings.free_of Bufio.newline) (Bufio.scan_lines content).
Proof.
  unfold Bufio.scan_lines. apply Forall_map.
  eapply Forall_impl; [apply fitting_Forall, (raw_lines_free _ []); constructor |].
  intros l Hl. unfold Strings.free_of, Strings.of_bytes, Strings.to_bytes. simpl.
  rewrite list_ascii_of_string_of_list_ascii. by apply dropCR_Forall.
Qed.

Lemma TrimSpace_free (c : ascii) (text : string) :
  Strings.free_of c text -> Strings.free_of c (Strings.TrimSpace text).
Proof.
  unfold Strings.free_of, Strings.TrimSpace, Strings.of_bytes. intros Ht.
  unfold Strings.to_bytes at 1. rewrite list_ascii_of_string_of_list_ascii.
  by apply trim_space_Forall.
Qed.

Lemma command_of_free (c : ascii) (text line : string) :
  Strings.free_of c text -> command_of text = Some line -> Strings.free_of c line.
Proof.
  unfold command_of. cbv zeta. intros Ht.
  destruct (_ || _); [done |]. destruct (_ && _); [done |].
  intros [= <-]. by apply TrimSpace_free.
Qed.

Lemma parse_lines_free (lines : list string) :
  Forall (Strings.free_of Bufio.newline) lines ->
  forall st,
  (forall g cmds, Groups st.1 !! g = Some cmds ->
     Forall (Strings.free_of Bufio.newline) cmds) ->
  forall g cmds, Groups (parse_lines st lines).1 !! g = Some cmds ->
    Forall (Strings.free_of Bufio.newline) cmds.
Proof.
  induction 1 as [| text lines Ht _ IH]; intros st Hst; [done |].
  rewrite parse_lines_cons. apply IH.
  destruct st as [cfg cur]. cbn [fst] in *.
  destruct (parse_line_cases cfg cur text)
    as [(h & _ & ->) | [(_ & _ & ->) | (line & _ & Hline & ->)]]; [| done |].
  - destruct (negb (String.eqb h "settings")); [| done].
    intros g cmds. simpl. destruct (decide (h = g)) as [<- | Hne].
    + rewrite lookup_insert_eq. by intros [= <-].
    + rewrite lookup_insert_ne by done. apply Hst.
  - destruct (String.eqb cur "settings").
    { destruct (Strings.SplitN2 line equals_sign) as [| k [| v [| ? ?]]]; done. }
    destruct (negb (String.eqb cur "")); [| done].
    intros g cmds. simpl. destruct (decide (cur = g)) as [<- | Hne].
    + rewrite lookup_insert_eq. intros [= <-].
      apply Forall_app. split.
      * destruct (Groups cfg !! cur) as [old |] eqn:Hold; [by apply (Hst cur) | done].
      * apply Forall_singleton. by apply (command_of_free _ text).
    + rewrite lookup_insert_ne by done. apply Hst.
Qed.

(** X8: the script that a task gives to the shell for a group of a parsed
    configuration has the commands of the group as its lines, one command
    to a line and in the order of the configuration text: joining them by
    line feeds loses nothing, since no stored command has a line feed. *)
Theorem parsed_group_script_lines (content g dir : string) (cmds : list string) :
  Groups (parseConfig content) !! g = Some cmds ->
  cmds <> [] ->
  exists script,
    Engine.command cmds dir = Engine.mkCmd "sh" ["-c"; script] dir /\
    Strings.Split script Bufio.newline = cmds.
Proof.
  intros Hg Hne. exists (Strings.Join cmds LF). split; [reflexivity |].
  apply script_lines; [done |].
  apply (parse_lines_free (Bufio.scan_lines content) (scan_lines_free content)
           (empty_config, "")) with (g := g); [| exact Hg].
  intros g0 cmds0. simpl. by rewrite lookup_empty.
Qed.

Lemma parsed_group_script_lines_witness :
  let content := "[build]" +:+ LF +:+ "cd src" +:+ LF +:+ "" +:+ LF +:+ "  make all" in
  Groups (parseConfig content) !! "build" = Some ["cd src"; "make all"] /\
  exists script,
    Engine.command ["cd src"; "make all"] "/srv/a" =
      Engine.mkCmd "sh" ["-c"; script] "/srv/a" /\
    Strings.Split script Bufio.newline = ["cd src"; "make all"].
Proof.
  intros content. split; [reflexivity |].
  apply (parsed_group_script_lines content "build"); [reflexivity | discriminate].
Defined.

(** ** [mergeConfig] as an operation on configurations *)

(** X9: merging with a configuration that has nothing in it changes
    nothing: an empty override gives the base back, and an empty base gives
    the override. *)
Theorem mergeConfig_empty (cfg : Config) :
  mergeConfig cfg empty_config = cfg /\
  mergeConfig empty_config cfg = cfg.
Proof.
  rewrite !mergeConfig_union. destruct cfg as [S G]. simpl.
  by rewrite !(left_id_L ∅ (∪)), !(right_id_L ∅ (∪)).
Qed.

(** X10: layering configurations is associative, and a configuration
    merged with itself is itself: with several override files only their
    order of precedence counts, not the grouping of the merges. *)
Theorem mergeConfig_assoc_idemp (a b c : Config) :
  mergeConfig (mergeConfig a b) c = mergeConfig a (mergeConfig b c) /\
  mergeConfig a a = a.
Proof.
  rewrite !mergeConfig_union. destruct a as [Sa Ga]. simpl.
  rewrite !(assoc_L (∪)). split; [done |].
  by rewrite !(idemp_L (∪)).
Qed.

(** X11: the merged configuration has the groups and settings of both
    configurations and no others: merging never drops a name and never
    makes one up. *)
Theorem mergeConfig_names (base override : Config) :
  dom (Groups (mergeConfig base override)) = dom (Groups base) ∪ dom (Groups override) /\
  dom (Settings (mergeConfig base override)) = dom (Settings base) ∪ dom (Settings override).
Proof.
  rewrite mergeConfig_union. simpl. rewrite !dom_union_L.
  split; apply (comm_L (∪)).
Qed.

Section HeapSharing.
Import Heap.

Lemma mergeConfig_ptr_extends (h : heap) (pb po : nat) (B O : Config) :
  read_config h pb = Some B ->
  read_config h po = Some O ->
  exists h' S V,
    mergeConfig_ptr pb po h = Some (length (structs h), h') /\
    extends_with h S V h'.
Proof.
  intros HB HO.
  destruct (alloc_config_extends h) as [Hpr Hext0].
  destruct (copy_settings_extends _ _ _ _ _ _ Hext0 HB) as (h1 & Hc1 & Hext1).
  destruct (copy_groups_extends _ _ _ _ _ _ Hext1 HB) as (h2 & Hc2 & Hext2).
  destruct (copy_settings_extends _ _ _ _ _ _ Hext2 HO) as (h3 & Hc3 & Hext3).
  destruct (copy_groups_extends _ _ _ _ _ _ Hext3 HO) as (h4 & Hc4 & Hext4).
  exists h4. eexists _, _. split; [| exact Hext4].
  unfold mergeConfig_ptr.
  destruct (alloc_config h) as [pr h0] eqn:Halloc. simpl in *. subst pr.
  rewrite Hc1. simpl. rewrite Hc2. simpl. rewrite Hc3. simpl. by rewrite Hc4.
Qed.

(** X12: the result of [mergeConfig] shares no object with its arguments:
    its struct, its two maps and the arrays of all its command lists are
    objects that the heap did not have before the call.  So a later write
    to the result, as [result.Settings[k] = v] or [result.Groups[g] = sl],
    leaves the base and the override as they were. *)
Theorem mergeConfig_result_is_fresh (h h' : heap) (pb po pr : nat) (B O : Config) :
  read_config h pb = Some B ->
  read_config h po = Some O ->
  mergeConfig_ptr pb po h = Some (pr, h') ->
  structs h !! pr = None /\
  (exists o gm,
     structs h' !! pr = Some o /\
     strmaps h !! f_settings o = None /\
     slicemaps h !! f_groups o = None /\
     slicemaps h' !! f_groups o = Some gm /\
     forall g sl, gm !! g = Some sl -> arrays h !! s_array sl = None) /\
  (forall k v, exists h'',
     store_setting pr k v h' = Some h'' /\
     read_config h'' pb = Some B /\ read_config h'' po = Some O) /\
  (forall g sl, exists h'',
     store_group pr g sl h' = Some h'' /\
     structs h `prefix_of` structs h'' /\ strmaps h `prefix_of` strmaps h'' /\
     slicemaps h `prefix_of` slicemaps h'' /\ arrays h `prefix_of` arrays h'').
Proof.
  intros HB HO Hm.
  destruct (mergeConfig_ptr_extends h pb po B O HB HO) as (h1 & S & V & Hm' & Hext).
  rewrite Hm in Hm'. injection Hm' as -> <-.
  pose proof (extends_struct _ _ _ _ Hext) as Hs.
  split; [by apply lookup_ge_None |]. split; [| split].
  - destruct Hext as (G & ext & Hst & Hsm & Hgm & Har & Hv).
    exists (mkObj (length (strmaps h)) (length (slicemaps h))), G. simpl.
    split; [done |]. split; [by apply lookup_ge_None |].
    split; [by apply lookup_ge_None |].
    split; [by rewrite Hgm, list_lookup_middle |].
    intros g sl Hsl. apply lookup_ge_None. by apply (Hv g).
  - intros k v.
    destruct (store_setting_extends _ _ _ _ k v Hext) as (h2 & Hstore & Hext2).
    exists h2. split; [done |].
    split; by apply (read_config_preserved _ _ _ _ _ _ Hext2).
  - intros g sl.
    destruct Hext as (G & ext & Hst & Hsm & Hgm & Har & Hv).
    unfold store_group. rewrite Hs. simpl.
    rewrite Hgm, list_lookup_middle by done. simpl.
    eexists. split; [reflexivity |]. simpl.
    rewrite Hst, Hsm, Har.
    rewrite insert_app_r_alt by done.
    repeat split; by apply prefix_app_r.
Qed.

Lemma mergeConfig_result_is_fresh_witness :
  exists pr h',
    mergeConfig_ptr 0 1 sample_heap = Some (pr, h') /\
    pr = 2 /\
    structs sample_heap !! pr = None /\
    (exists h'',
       store_setting pr "a" "changed" h' = Some h'' /\
       read_config h'' 0 = Some sample_base /\ read_config h'' 1 = Some sample_override).
Proof.
  assert (read_config sample_heap 0 = Some sample_base) as HB
    by (vm_compute; reflexivity).
  assert (read_config sample_heap 1 = Some sample_override) as HO
    by (vm_compute; reflexivity).
  destruct (mergeConfig_ptr_extends sample_heap 0 1 _ _ HB HO) as (h' & S & V & Hm & _).
  exists 2, h'. split; [exact Hm |]. split; [reflexivity |].
  destruct (mergeConfig_result_is_fresh sample_heap h' 0 1 2 sample_base sample_override
              HB HO Hm) as (Hnew & _ & Hset & _).
  split; [exact Hnew |]. exact (Hset "a" "changed").
Defined.

End HeapSharing.

(** ** [main]: what reaches the fan-out *)

Lemma Atoi_range (v : string) (n : Z) :
  Strconv.Atoi v = Some n -> (- 2 ^ 63 <= n <= 2 ^ 63 - 1)%Z.
Proof.
  unfold Strconv.Atoi. cbv zeta.
  destruct (match Strings.to_bytes v with
            | [] => (false, Strings.to_bytes v)
            | c :: r =>
              if Strings.byte_eqb c Strconv.minus_sign then (true, r)
              else if Strings.byte_eqb c Strconv.plus_sign then (false, r)
              else (false, Strings.to_bytes v)
            end) as [neg ds].
  destruct ds as [| d ds]; [done |].
  destruct (Strconv.parse_digits 0 (d :: ds)) as [m |]; [| done].
  change (Strconv.intSize - 1)%Z with 63%Z.
  destruct (Z.leb_spec (- 2 ^ 63) (if neg then (- m)%Z else m)); [| done].
  destruct (Z.leb_spec (if neg then (- m)%Z else m) (2 ^ 63 - 1)); [| done].
  simpl. intros [= <-]. lia.
Qed.

Lemma concurrency_of_range (cfg : Config) : (1 <= concurrency_of cfg <= 2 ^ 63 - 1)%Z.
Proof.
  unfold concurrency_of.
  destruct (Settings cfg !! "concurrency") as [v |]; [| lia].
  destruct (Strconv.Atoi v) as [n |] eqn:Hn; [| lia].
  apply Atoi_range in Hn.
  destruct (Z.ltb_spec 0 n); lia.
Qed.

(** X13: whenever [main] reaches the fan-out there is at least one
    directory, the capacity of the channel is a positive [int], the
    commands are those of the requested group in the resolved
    configuration, and the last line written so far announces the
    capacity. *)
Theorem main_dispatch_shape (args : list string) (embedded : string) (ext : option string)
    (out : list event) (c : Z) (cmds dirs : list string) :
  main args embedded ext = Dispatch out c cmds dirs ->
  dirs <> [] /\
  (1 <= c <= 2 ^ 63 - 1)%Z /\
  (exists prog group,
     args = prog :: group :: dirs /\
     Groups (load_config embedded ext).1 !! group = Some cmds) /\
  out = (load_config embedded ext).2 ++ [MaxConcurrency c].
Proof.
  unfold main.
  destruct (Nat.ltb_spec (length args) 3) as [| Hlen]; [done |].
  destruct args as [| prog [| group dirs']]; try done.
  destruct (load_config embedded ext) as [cfg o]. simpl.
  destruct (Groups cfg !! group) as [cmds' |] eqn:Hg; [| done].
  intros [= <- <- <- <-].
  split; [destruct dirs'; [simpl in Hlen; lia | done] |].
  split; [apply concurrency_of_range |].
  split; [| done]. by exists prog, group.
Qed.

Lemma main_dispatch_shape_witness :
  let conf := "[settings]" +:+ LF +:+ "concurrency = 4" +:+ LF +:+ "[build]" +:+ LF +:+ "make" in
  main ["runCmd"; "build"; "/a"; "/a"] conf None =
    Dispatch [MaxConcurrency 4] 4 ["make"] ["/a"; "/a"] /\
  ["/a"; "/a"] <> [] /\ (1 <= 4 <= 2 ^ 63 - 1)%Z.
Proof.
  intros conf. split; [reflexivity |].
  destruct (main_dispatch_shape ["runCmd"; "build"; "/a"; "/a"] conf None
              [MaxConcurrency 4] 4 ["make"] ["/a"; "/a"] eq_refl) as (Hd & Hc & _).
  by split.
Defined.

(** X14: an external configuration file decides a group that it defines,
    as a whole: [main] then runs the commands of the file and none of the
    embedded ones; a group that the file does not define runs as embedded.
    The file is announced on the first line of output. *)
Theorem main_external_group (prog group dir : string) (dirs : list string)
    (embedded text : string) :
  let cfg := mergeConfig (parseConfig embedded) (parseConfig text) in
  let announce := [ExternalConfig; MaxConcurrency (concurrency_of cfg)] in
  (forall cmds, Groups (parseConfig text) !! group = Some cmds ->
     main (prog :: group :: dir :: dirs) embedded (Some text) =
       Dispatch announce (concurrency_of cfg) cmds (dir :: dirs)) /\
  (forall cmds, Groups (parseConfig text) !! group = None ->
     Groups (parseConfig embedded) !! group = Some cmds ->
     main (prog :: group :: dir :: dirs) embedded (Some text) =
       Dispatch announce (concurrency_of cfg) cmds (dir :: dirs)).
Proof.
  intros cfg announce. subst announce cfg.
  destruct (mergeConfig_lookup (parseConfig embedded) (parseConfig text))
    as (Hin & Hout & _).
  split; intros cmds.
  - intros Hg. rewrite main_enough_args. unfold load_config. cbv zeta.
    by rewrite (Hin group cmds Hg).
  - intros Hnone Hg. rewrite main_enough_args. unfold load_config. cbv zeta.
    by rewrite (Hout group Hnone), Hg.
Qed.

Lemma main_external_group_witness :
  let embedded := "[build]" +:+ LF +:+ "make" +:+ LF +:+ "make test" +:+ LF +:+
                  "[lint]" +:+ LF +:+ "golint" in
  let text := "[build]" +:+ LF +:+ "go build" in
  main ["runCmd"; "build"; "/a"] embedded (Some text) =
    Dispatch [ExternalConfig; MaxConcurrency 3] 3 ["go build"] ["/a"] /\
  main ["runCmd"; "lint"; "/a"] embedded (Some text) =
    Dispatch [ExternalConfig; MaxConcurrency 3] 3 ["golint"] ["/a"].
Proof.
  intros embedded text.
  destruct (main_external_group "runCmd" "build" "/a" [] embedded text) as [Hin _].
  destruct (main_external_group "runCmd" "lint" "/a" [] embedded text) as [_ Hout].
  split.
  - apply (Hin ["go build"]). reflexivity.
  - apply (Hout ["golint"]); reflexivity.
Defined.

(** ** Decimal numerals and [strconv.Atoi] *)

Lemma digit_of_pretty_char (d : N) :
  (d < 10)%N -> Strconv.digit_of (pretty_N_char d) = Some (Z.of_N d).
Proof.
  intros Hd.
  assert (d = 0 \/ d = 1 \/ d = 2 \/ d = 3 \/ d = 4 \/ d = 5 \/ d = 6 \/ d = 7 \/
          d = 8 \/ d = 9)%N as Hcases by lia.
  repeat (destruct Hcases as [-> | Hcases]; [reflexivity |]). by subst d.
Qed.

Lemma pretty_char_no_sign (d : N) :
  Strings.byte_eqb (pretty_N_char d) Strconv.minus_sign = false /\
  Strings.byte_eqb (pretty_N_char d) Strconv.plus_sign = false.
Proof. unfold pretty_N_char. repeat case_match; by split. Qed.

(** The digits that [pretty_N_go] puts before [s] read back as the number:
    there are [k] of them, and the first one is a digit. *)
Lemma parse_pretty_N_go (x : N) :
  forall s, exists k : nat,
    (forall acc,
       Strconv.parse_digits acc (Strings.to_bytes (pretty_N_go x s)) =
       Strconv.parse_digits (acc * 10 ^ Z.of_nat k + Z.of_N x)%Z (Strings.to_bytes s)) /\
    ((0 < x)%N ->
       exists d rest, Strings.to_bytes (pretty_N_go x s) = pretty_N_char d :: rest).
Proof.
  induction (N.lt_wf_0 x) as [x _ IH]. intros s.
  destruct (N.eq_dec x 0%N) as [-> | Hx].
  { exists 0. rewrite pretty_N_go_0. split; [| lia].
    intros acc. f_equal. simpl. lia. }
  assert (0 < x)%N as Hpos by lia.
  rewrite (pretty_N_go_step x s Hpos).
  destruct (IH (N.div x 10) (N.div_lt x 10 Hpos eq_refl)
               (String (pretty_N_char (N.modulo x 10)) s)) as (k & Hparse & Hfirst).
  exists (S k). split.
  - intros acc. rewrite Hparse. cbn [Strings.to_bytes list_ascii_of_string].
    cbn [Strconv.parse_digits].
    rewrite digit_of_pretty_char by (apply N.mod_lt; lia).
    fold (Strings.to_bytes s). f_equal.
    rewrite Nat2Z.inj_succ, Z.pow_succ_r by lia.
    pose proof (N.div_mod' x 10%N) as Hdm. lia.
  - intros _. destruct (N.eq_dec (N.div x 10) 0%N) as [Hz | Hnz].
    + rewrite Hz, pretty_N_go_0. by eexists _, _.
    + apply Hfirst. by apply N.neq_0_lt_0.
Qed.

(** X15: the decimal numeral of a positive [int], as [main] prints it with
    [%d] on line 157, is a value of the [concurrency] setting that gives
    that very number as the ceiling. *)
Theorem concurrency_numeral (n : Z) :
  (1 <= n <= 2 ^ 63 - 1)%Z ->
  Strconv.Atoi (pretty n) = Some n /\
  forall cfg, Settings cfg !! "concurrency" = Some (pretty n) -> concurrency_of cfg = n.
Proof.
  intros Hn.
  assert (Strconv.Atoi (pretty n) = Some n) as Hatoi.
  { destruct n as [| p | p]; try lia.
    change (pretty (Z.pos p)) with (pretty_N_go (N.pos p) "").
    destruct (parse_pretty_N_go (N.pos p) "") as (k & Hparse & Hfirst).
    destruct Hfirst as (d & rest & Hbytes); [lia |].
    specialize (Hparse 0%Z). rewrite Z.mul_0_l, Z.add_0_l in Hparse.
    change (Strconv.parse_digits (Z.of_N (N.pos p)) (Strings.to_bytes ""))
      with (Some (Z.pos p)) in Hparse.
    unfold Strconv.Atoi. cbv zeta. rewrite Hbytes.
    destruct (pretty_char_no_sign d) as [-> ->].
    rewrite <- Hbytes, Hparse.
    change (Strconv.intSize - 1)%Z with 63%Z.
    destruct (Z.leb_spec (- 2 ^ 63) (Z.pos p)); [| lia].
    destruct (Z.leb_spec (Z.pos p) (2 ^ 63 - 1)); [done | lia]. }
  split; [done |].
  intros cfg Hcfg. unfold concurrency_of. rewrite Hcfg, Hatoi.
  destruct (Z.ltb_spec 0 n); [done | lia].
Qed.

Lemma concurrency_numeral_witness :
  (1 <= 12 <= 2 ^ 63 - 1)%Z /\
  Strconv.Atoi "12" = Some 12%Z /\
  concurrency_of (mkConfig {[ "concurrency" := "12" ]} ∅) = 12%Z.
Proof.
  assert (1 <= 12 <= 2 ^ 63 - 1)%Z as H by lia.
  destruct (concurrency_numeral 12 H) as [Ha Hc].
  split; [exact H |]. split; [exact Ha |].
  apply Hc. reflexivity.
Defined.

(** ** The fan-out at any moment of a run *)

Section EngineMore.
Import Engine.

Variable capacity : nat.
Variable cmds : list string.
Variable os : nat -> Cmd -> outcome.

Local Abbreviation step := (Engine.step capacity cmds os).
Local Abbreviation exec := (Engine.exec capacity cmds os).
Local Abbreviation task_trace := (Engine.task_trace cmds os).
Local Abbreviation expected := (Engine.expected cmds os).

(** X16: at every moment of every run, whatever the interleaving, what a
    task has done so far is the beginning of what it does alone; so the
    lines it has written are the first lines of its output, in their
    order.  Indices beyond the directories have done nothing. *)
Theorem task_output_in_order (dirs : list string) (tr : list label) (s : state) :
  exec (init dirs) tr s ->
  (forall j dir, dirs !! j = Some dir ->
     of_task j tr `prefix_of` task_trace j dir /\
     printed (of_task j tr) `prefix_of` task_output cmds os j dir) /\
  (forall j, dirs !! j = None -> of_task j tr = []).
Proof.
  intros Hexec.
  pose proof (exec_expected capacity cmds os _ _ _ Hexec) as Hexp.
  split.
  - intros j dir Hj. specialize (Hexp j). rewrite expected_init, Hj in Hexp.
    split; [by exists (expected s j) |].
    rewrite <- printed_task_trace, Hexp, printed_app.
    by eexists.
  - intros j Hj. specialize (Hexp j). rewrite expected_init, Hj in Hexp.
    symmetry in Hexp. by apply app_eq_nil in Hexp as [-> _].
Qed.



Lemma step_dirs (s s' : state) (t : tid) (l : label) :
  step s t = Some (l, s') ->
  map t_dir (tasks s') ++ pending (main_pc s') = map t_dir (tasks s) ++ pending (main_pc s).
Proof.
  intros Hstep.
  apply step_cases in Hstep as [_ [[-> Hm] | (i & -> & Ht)]].
  - apply step_main_inv in Hm as (_ & _ & Hm).
    destruct (main_pc s) as [[| dir rest] | dir rest |]; [| | | done].
    + by destruct Hm as (_ & -> & _ & _ & ->).
    + by destruct Hm as (_ & -> & _ & ->).
    + destruct Hm as (_ & -> & _ & ->). rewrite map_app, <- app_assoc. done.
  - apply step_task_inv in Ht as (t & pc' & Hi & _ & -> & -> & _).
    f_equal. apply list_eq. intros j. rewrite !list_lookup_fmap.
    destruct (decide (i = j)) as [<- | Hne].
    + rewrite list_lookup_insert_eq by (by eapply lookup_lt_Some). by rewrite Hi.
    + by rewrite list_lookup_insert_ne.
Qed.

Lemma exec_dirs (s s' : state) (tr : list label) :
  exec s tr s' ->
  map t_dir (tasks s') ++ pending (main_pc s') = map t_dir (tasks s) ++ pending (main_pc s).
Proof.
  induction 1 as [s | s t l s1 tr s2 Hstep _ IH]; [done |].
  rewrite IH. by apply (step_dirs _ _ t l).
Qed.

(** X18: the tasks are started in the order of the directories, one task
    for each directory of the list, a directory given twice having two
    tasks: at every moment the directories of the tasks started, followed
    by those still to start, are the list that [main] was given. *)
Theorem tasks_follow_directories (dirs : list string) (tr : list label) (s : state) :
  exec (init dirs) tr s ->
  map t_dir (tasks s) ++ pending (main_pc s) = dirs /\
  (main_pc s = MReturned -> map t_dir (tasks s) = dirs).
Proof.
  intros Hexec.
  assert (map t_dir (tasks s) ++ pending (main_pc s) = dirs) as Hd.
  { by rewrite (exec_dirs _ _ _ Hexec). }
  split; [done |]. intros Hret. rewrite Hret in Hd. by rewrite app_nil_r in Hd.
Qed.



End EngineMore.

(** ** A channel without capacity *)

Section Unbuffered.
Import Engine.

Variable cmds : list string.
Variable os : nat -> Cmd -> outcome.

Lemma unbuffered_exec (s s' : state) (tr : list label) :
  Engine.exec 0 cmds os s tr s' ->
  Forall (fun t => t_pc t = PAcquire) (tasks s) ->
  Forall (fun t => t_pc t = PAcquire) (tasks s') /\ printed tr = [].
Proof.
  induction 1 as [s | s t l s1 tr s2 Hstep _ IH]; intros Hall; [done |].
  apply step_cases in Hstep as [_ [[-> Hm] | (i & -> & Ht)]].
  - apply step_main_inv in Hm as (Hown & _ & Hm).
    assert (Forall (fun t => t_pc t = PAcquire) (tasks s1)) as Hall1.
    { destruct (main_pc s) as [[| dir rest] | dir rest |]; [| | | done].
      - by destruct Hm as (_ & _ & _ & _ & ->).
      - by destruct Hm as (_ & _ & _ & ->).
      - destruct Hm as (_ & _ & _ & ->). apply Forall_app. split; [done |].
        by apply Forall_singleton. }
    destruct (IH Hall1) as [Hall2 Hnil]. split; [done |].
    rewrite printed_cons. by destruct l.
  - exfalso. unfold step_task in Ht.
    destruct (tasks s !! i) as [t |] eqn:Hi; [| done].
    rewrite Forall_lookup in Hall. by rewrite (Hall i t Hi) in Ht.
Qed.

(** X20: [runCmdsInDir] needs a channel with room: started with a channel
    of capacity 0 no task ever gets past its send, so nothing is written,
    and [main] never returns from [wg.Wait()] when there is a directory.
    The default of 3 for a ceiling that is not positive keeps [main] from
    this. *)
Theorem unbuffered_channel_deadlocks (dirs : list string) (tr : list label) (s : state) :
  dirs <> [] ->
  Engine.exec 0 cmds os (init dirs) tr s ->
  main_pc s <> MReturned /\
  printed tr = [] /\
  Forall (fun t => t_pc t = PAcquire) (tasks s).
Proof.
  intros Hne Hexec.
  destruct (unbuffered_exec _ _ _ Hexec) as [Hall Hnil]; [by constructor |].
  split; [| by split].
  intros Hret.
  pose proof (invariant_exec 0 cmds os _ _ _ (invariant_init 0 dirs) Hexec) as Hinv.
  destruct (returned_all_done 0 cmds os s Hinv Hret) as (Hdone & _).
  pose proof (exec_dirs 0 cmds os _ _ _ Hexec) as Hd.
  rewrite Hret in Hd. simpl in Hd. rewrite app_nil_r in Hd.
  destruct (tasks s) as [| t ts]; [by symmetry in Hd |].
  apply Forall_cons in Hall as [Ha _]. apply Forall_cons in Hdone as [Hd' _].
  congruence.
Qed.

End Unbuffered.

(** ** The further properties on sample runs *)

Section MoreSamples.
Import Engine.


Lemma sample_run_prefix :
  exec 2 sample_cmds sample_os (init sample_dirs) sample_trace_prefix sample_state_prefix.
Proof. apply (run_exec _ _ _ _ _ sample_prefix). vm_compute. reflexivity. Qed.

Lemma sample_run_unbuffered :
  exec 0 sample_cmds sample_os (init sample_dirs)
       sample_trace_unbuffered sample_state_unbuffered.
Proof. apply (run_exec _ _ _ _ _ (repeat Main 6)). vm_compute. reflexivity. Qed.

Lemma task_output_in_order_witness :
  exec 2 sample_cmds sample_os (init sample_dirs) sample_trace_prefix sample_state_prefix /\
  printed (of_task 1 sample_trace_prefix) = [StartBanner "/b"] /\
  printed (of_task 1 sample_trace_prefix) `prefix_of`
    [StartBanner "/b"; OutputLine "/b" "a"; RunError "/b" "exit status 1"; DoneBanner "/b"] /\
  of_task 3 sample_trace_prefix = [].
Proof.
  pose proof sample_run_prefix as Hexec.
  destruct (task_output_in_order 2 sample_cmds sample_os sample_dirs
              sample_trace_prefix sample_state_prefix Hexec) as [Hin Hout].
  split; [exact Hexec |]. split; [reflexivity |].
  split; [exact (proj2 (Hin 1 "/b" eq_refl)) | exact (Hout 3 eq_refl)].
Defined.


Lemma tasks_follow_directories_witness :
  exec 2 sample_cmds sample_os (init sample_dirs) sample_trace_prefix sample_state_prefix /\
  map t_dir (tasks sample_state_prefix) ++ pending (main_pc sample_state_prefix) =
    ["/a"; "/b"; "/c"].
Proof.
  pose proof sample_run_prefix as Hexec. split; [exact Hexec |].
  exact (proj1 (tasks_follow_directories 2 sample_cmds sample_os sample_dirs
                  sample_trace_prefix sample_state_prefix Hexec)).
Defined.


Lemma unbuffered_channel_deadlocks_witness :
  exec 0 sample_cmds sample_os (init sample_dirs)
       sample_trace_unbuffered sample_state_unbuffered /\
  length (tasks sample_state_unbuffered) = 3 /\
  main_pc sample_state_unbuffered <> MReturned /\
  printed sample_trace_unbuffered = [] /\
  Forall (fun t => t_pc t = PAcquire) (tasks sample_state_unbuffered).
Proof.
  pose proof sample_run_unbuffered as Hexec.
  split; [exact Hexec |]. split; [reflexivity |].
  apply (unbuffered_channel_deadlocks sample_cmds sample_os sample_dirs); [done | exact Hexec].
Defined.


End MoreSamples.

(** ** A ceiling of one: the tasks write one after the other *)

Section Serial.
Import Engine.

Variable cmds : list string.
Variable os : nat -> Cmd -> outcome.

Local Abbreviation pending_lines := (to_write cmds os).
Local Abbreviation pending_lines_from := (to_write_from cmds os).

Lemma to_write_not_holding (i : nat) (t : task) :
  holding (t_pc t) = false -> pending_lines i t = [].
Proof. unfold to_write. destruct t as [dir pc]. by destruct pc. Qed.

Lemma to_write_from_nil (k : nat) (ts : list task) :
  Forall (fun t => holding (t_pc t) = false) ts -> pending_lines_from k ts = [].
Proof.
  intros Hall. revert k. induction Hall as [| t ts Ht _ IH]; intros k; [done |].
  simpl. by rewrite (to_write_not_holding k t Ht), IH.
Qed.

Lemma to_write_from_app (k : nat) (l1 l2 : list task) :
  pending_lines_from k (l1 ++ l2) = pending_lines_from k l1 ++ pending_lines_from (k + length l1) l2.
Proof.
  revert k. induction l1 as [| t l1 IH]; intros k; simpl.
  - by rewrite Nat.add_0_r.
  - rewrite IH, <- app_assoc. do 3 f_equal. lia.
Qed.

Lemma to_write_from_insert (k i : nat) (ts : list task) (t t' : task) :
  ts !! i = Some t ->
  pending_lines_from k (<[i := t']> ts) =
    pending_lines_from k (take i ts) ++ pending_lines (k + i) t' ++
    pending_lines_from (k + S i) (drop (S i) ts).
Proof.
  intros Hi.
  rewrite <- (take_drop_middle ts i t Hi) at 1.
  assert (length (take i ts) = i) as Hlen.
  { apply length_take_le. apply lookup_lt_Some in Hi. lia. }
  rewrite <- Hlen at 1. rewrite insert_app_r_alt by lia.
  rewrite Nat.sub_diag. simpl.
  rewrite to_write_from_app. simpl. rewrite Hlen.
  do 3 f_equal. lia.
Qed.

Lemma count_zero_Forall {A} (p : A -> bool) (l : list A) :
  count p l = 0 -> Forall (fun x => p x = false) l.
Proof.
  intros Hz. apply Forall_lookup. intros i x Hi. by apply (count_zero p l i x).
Qed.

(** When the channel holds one value at most, the task that has the slot
    is the only one. *)
Lemma one_holder (ts : list task) (i : nat) (t : task) :
  count (fun t => holding (t_pc t)) ts <= 1 ->
  ts !! i = Some t -> holding (t_pc t) = true ->
  Forall (fun t => holding (t_pc t) = false) (take i ts) /\
  Forall (fun t => holding (t_pc t) = false) (drop (S i) ts).
Proof.
  intros Hle Hi Ht.
  rewrite <- (take_drop_middle ts i t Hi), count_app, count_cons, Ht in Hle.
  simpl in Hle.
  split; apply count_zero_Forall; lia.
Qed.

Lemma acquired_cons (l : label) (tr : list label) :
  acquired (l :: tr) =
    match l with LSend i => i :: acquired tr | _ => acquired tr end.
Proof. unfold acquired. by destruct l. Qed.

(** What a step of task [i] does to what is still to write. *)
Lemma step_task_write (capacity i : nat) (s s' : state) (l : label) :
  Engine.step_task capacity cmds os i s = Some (l, s') ->
  exists t t',
    tasks s !! i = Some t /\
    tasks s' = <[i := t']> (tasks s) /\
    main_pc s' = main_pc s /\
    t_dir t' = t_dir t /\
    ((t_pc t = PAcquire /\ l = LSend i /\ worker s < capacity /\
      pending_lines i t' = task_output cmds os i (t_dir t)) \/
     (t_pc t <> PAcquire /\ is_send l = false /\
      pending_lines i t = printed [l] ++ pending_lines i t' /\
      (holding (t_pc t) = false -> printed [l] = []))).
Proof.
  unfold Engine.step_task. intros Hstep.
  destruct (tasks s !! i) as [[dir pc] |] eqn:Ht; [| discriminate].
  exists (mkTask dir pc). simpl in *.
  destruct pc as [| | | err | lines werr | err | | | |].
  - destruct (Nat.ltb_spec (worker s) capacity); [| discriminate].
    injection Hstep as <- <-. exists (mkTask dir PBanner). simpl.
    repeat split; try done. left. repeat split; try done.
    rewrite <- printed_task_trace. reflexivity.
  - injection Hstep as <- <-. exists (mkTask dir PStart). simpl.
    repeat split; try done. right. by repeat split.
  - destruct (os i (command cmds dir)) as [err | lines werr] eqn:Hos;
      injection Hstep as <- <-;
      [exists (mkTask dir (PStartFailed err)) | exists (mkTask dir (PScan lines werr))];
      simpl; (repeat split; try done); right; (repeat split; try done);
      unfold to_write, Engine.rest_of; simpl; by rewrite Hos.
  - injection Hstep as <- <-. exists (mkTask dir PRelease). simpl.
    repeat split; try done. right. by repeat split.
  - destruct lines as [| line lines]; [destruct werr as [err |] |];
      injection Hstep as <- <-;
      [exists (mkTask dir (PRunError err)) | exists (mkTask dir PFinish)
       | exists (mkTask dir (PScan lines werr))];
      simpl; (repeat split; try done); right; by repeat split.
  - injection Hstep as <- <-. exists (mkTask dir PFinish). simpl.
    repeat split; try done. right. by repeat split.
  - injection Hstep as <- <-. exists (mkTask dir PRelease). simpl.
    repeat split; try done. right. by repeat split.
  - destruct (worker s) as [| n] eqn:Hw; [discriminate |].
    injection Hstep as <- <-. exists (mkTask dir PWgDone). simpl.
    repeat split; try done. right. by repeat split.
  - destruct (wg s) as [| n] eqn:Hw; [discriminate |].
    injection Hstep as <- <-. exists (mkTask dir PDone). simpl.
    repeat split; try done. right. by repeat split.
  - discriminate.
Qed.

Lemma serial_future (dirs : list string) (s s' : state) (tr : list label) :
  Engine.exec 1 cmds os s tr s' ->
  invariant 1 s ->
  map t_dir (tasks s) ++ pending (main_pc s) = dirs ->
  main_pc s' = MReturned ->
  printed tr =
    pending_lines_from 0 (tasks s) ++ concat (map (output_of cmds os dirs) (acquired tr)).
Proof.
  induction 1 as [s | s t l s1 tr s2 Hstep _ IH]; intros Hinv Hdirs Hret.
  { destruct (returned_all_done 1 cmds os s Hinv Hret) as (Hall & _).
    rewrite to_write_from_nil; [done |].
    eapply Forall_impl; [exact Hall |]. intros t Ht. simpl in Ht. by rewrite Ht. }
  specialize (IH (invariant_step 1 cmds os _ _ _ _ Hinv Hstep)).
  rewrite (step_dirs 1 cmds os _ _ _ _ Hstep) in IH.
  specialize (IH Hdirs Hret).
  destruct Hinv as (Hw & Hcap & _).
  apply step_cases in Hstep as [_ [[-> Hm] | (i & -> & Ht)]].
  - apply step_main_inv in Hm as (Hown & _ & Hm).
    assert (printed (l :: tr) = printed tr /\ acquired (l :: tr) = acquired tr) as [-> ->].
    { rewrite printed_cons, acquired_cons. by destruct l. }
    rewrite IH. f_equal.
    destruct (main_pc s) as [[| dir rest] | dir rest |]; [| | | done].
    + by destruct Hm as (_ & _ & _ & _ & ->).
    + by destruct Hm as (_ & _ & _ & ->).
    + destruct Hm as (_ & _ & _ & ->).
      rewrite to_write_from_app. simpl. by rewrite app_nil_r.
  - apply step_task_write in Ht as (t & t' & Hi & Htasks & _ & _ & Hcase).
    rewrite Htasks, (to_write_from_insert 0 i _ t t' Hi) in IH.
    rewrite <- (list_insert_id (tasks s) i t Hi) at 1.
    rewrite (to_write_from_insert 0 i _ t t Hi).
    cbn [Nat.add] in IH |- *.
    destruct Hcase as [(Hpc & -> & Hroom & Hout) | (Hpc & Hsend & Hw' & Hquiet)].
    + assert (Forall (fun t => holding (t_pc t) = false) (tasks s)) as Hnone.
      { apply count_zero_Forall. fold (holders s). lia. }
      rewrite (to_write_from_nil 0 (take i (tasks s))) in IH |- *
        by (by apply Forall_take).
      rewrite (to_write_from_nil (S i) (drop (S i) (tasks s))) in IH |- *
        by (by apply Forall_drop).
      rewrite (to_write_not_holding i t) by (by rewrite Hpc).
      rewrite printed_cons, acquired_cons, IH, Hout. simpl.
      rewrite !app_nil_r. f_equal.
      unfold output_of. rewrite <- Hdirs.
      rewrite (lookup_app_l_Some _ _ _ (t_dir t)); [done |].
      change (map t_dir (tasks s)) with (t_dir <$> tasks s).
      by rewrite list_lookup_fmap, Hi.
    + assert (acquired (l :: tr) = acquired tr) as ->.
      { rewrite acquired_cons. by destruct l. }
      change (l :: tr) with ([l] ++ tr). rewrite printed_app, IH, Hw'.
      destruct (holding (t_pc t)) eqn:Hh.
      * destruct (one_holder (tasks s) i t) as [Hbefore Hafter];
          [fold (holders s); lia | done | done |].
        rewrite (to_write_from_nil 0 (take i (tasks s)) Hbefore).
        rewrite (to_write_from_nil (S i) (drop (S i) (tasks s)) Hafter).
        simpl. by rewrite !app_nil_r, <- app_assoc.
      * by rewrite (Hquiet eq_refl).
Qed.

Lemma count_of_task (q : label -> bool) (i : nat) (tr : list label) :
  (forall l, q l = true -> owned_by i l = true) ->
  count q (of_task i tr) = count q tr.
Proof.
  intros Hq. induction tr as [| l tr IH]; [done |].
  rewrite of_task_cons, count_cons.
  destruct (owned_by i l) eqn:Ho; simpl.
  - by rewrite count_cons, IH.
  - rewrite IH. destruct (q l) eqn:Hl; [| done].
    rewrite (Hq l Hl) in Ho. done.
Qed.

Lemma count_occ_acquired (i : nat) (tr : list label) :
  count_occ Nat.eq_dec (acquired tr) i = count (sends_of i) tr.
Proof.
  induction tr as [| l tr IH]; [done |].
  rewrite acquired_cons, count_cons.
  destruct l; simpl; try done.
  destruct (Nat.eq_dec i0 i) as [-> | Hne].
  - by rewrite Nat.eqb_refl, IH.
  - by rewrite (proj2 (Nat.eqb_neq i0 i) Hne), IH.
Qed.

Lemma count_occ_seq_0 (n i : nat) :
  count_occ Nat.eq_dec (seq 0 n) i = if i <? n then 1 else 0.
Proof.
  induction n as [| n IH]; [done |].
  rewrite seq_S, count_occ_app, IH. simpl.
  destruct (Nat.eq_dec n i) as [-> | Hne].
  - rewrite Nat.ltb_irrefl. by rewrite (proj2 (Nat.ltb_lt i (S i))) by lia.
  - destruct (Nat.ltb_spec i n), (Nat.ltb_spec i (S n)); lia.
Qed.

(** X21: under a ceiling of one the tasks write one after the other: what
    a run that reached the return of [main] has written is the whole
    output of the task that got the slot first, then the whole output of
    the next one, and so on, no line of one directory standing between the
    lines of another; and every task got the slot once. *)
Theorem ceiling_one_serialises (dirs : list string) (tr : list label) (s : state) :
  Engine.exec 1 cmds os (init dirs) tr s ->
  main_pc s = MReturned ->
  printed tr = concat (map (output_of cmds os dirs) (acquired tr)) /\
  acquired tr ≡ₚ seq 0 (length dirs).
Proof.
  intros Hexec Hret. split.
  - by rewrite (serial_future dirs _ _ _ Hexec (invariant_init 1 dirs) eq_refl Hret).
  - apply (Permutation_count_occ Nat.eq_dec). intros i.
    rewrite count_occ_acquired, count_occ_seq_0.
    rewrite <- (count_of_task (sends_of i) i)
      by (intros l Hl; destruct l; try done; exact Hl).
    rewrite (complete_projection 1 cmds os dirs tr s Hexec Hret i).
    destruct (dirs !! i) as [dir |] eqn:Hd.
    + rewrite (proj2 (Nat.ltb_lt i (length dirs))) by (by eapply lookup_lt_Some).
      destruct (task_trace_shape cmds os i dir) as (body & -> & _ & Hbody).
      rewrite count_cons, count_app. simpl. rewrite Nat.eqb_refl.
      assert (count (sends_of i) body = 0) as ->; [| done].
      pose proof (count_le (sends_of i) is_send body) as Hle.
      rewrite Hbody in Hle. 
      assert (forall x, sends_of i x = true -> is_send x = true) as Himp
        by (intros x; by destruct x).
      specialize (Hle Himp). lia.
    + apply lookup_ge_None in Hd.
      by rewrite (proj2 (Nat.ltb_ge i (length dirs))).
Qed.

End Serial.

Section SerialSample.
Import Engine.

Lemma sample_run_one :
  exec 1 sample_cmds sample_os (init sample_dirs) sample_trace_one sample_final_one /\
  main_pc sample_final_one = MReturned.
Proof.
  split; [| reflexivity].
  apply (run_exec _ _ _ _ _ sample_schedule_one). vm_compute. reflexivity.
Qed.

Lemma ceiling_one_serialises_witness :
  exec 1 sample_cmds sample_os (init sample_dirs) sample_trace_one sample_final_one /\
  acquired sample_trace_one = [2; 0; 1] /\
  printed sample_trace_one =
    [StartBanner "/c"; OutputLine "/c" "a"; DoneBanner "/c"] ++
    [StartBanner "/a"; StartFailed "/a" "chdir /a: no such file or directory"] ++
    [StartBanner "/b"; OutputLine "/b" "a"; RunError "/b" "exit status 1"; DoneBanner "/b"] /\
  acquired sample_trace_one ≡ₚ [0; 1; 2].
Proof.
  destruct sample_run_one as [Hexec Hret].
  destruct (ceiling_one_serialises sample_cmds sample_os sample_dirs
              sample_trace_one sample_final_one Hexec Hret) as [Hout Hperm].
  split; [exact Hexec |]. split; [reflexivity |]. split; [| exact Hperm].
  rewrite Hout. reflexivity.
Defined.

End SerialSample.
